(** * EduSphar landing page: the UI-state hooks of [EduSpharLanding.jsx]

    A shallow embedding of the hooks and components that hold state in
    [src/frontend/src/pages/EduSpharLanding.jsx]:

    - [useTheme] (lines 166-206) and [AnnouncementBar] (lines 280-304), which
      talk to [window.localStorage] and [window.matchMedia];
    - [useRafCounter] (lines 240-273) and [useScrollHeader] (lines 212-234),
      which schedule callbacks with [requestAnimationFrame];
    - the focus trap of [Header] (lines 347-375).

    Part I holds the embedding, Part II the predicates the properties are
    stated with, Part III the proofs. *)

From Stdlib Require Import QArith Qround Qminmax Qabs Qpower Lqa.
From stdpp Require Import base option list gmap strings.

Local Open Scope string_scope.

(* ===================================================================== *)
(** * Part I: the embedding                                               *)
(* ===================================================================== *)

(** ** The browser as seen by the storage-backed hooks *)

Module Browser.

(** A method of a host object: it may be missing ([undefined]), it may
    throw when called, or it may work. *)
Inductive Method := MAbsent | MThrows | MWorks.

(** What evaluating [window.localStorage] gives: the property access itself
    throws (storage blocked by the browser), the property is [null] or
    [undefined], or it is a storage object with its two methods. *)
Inductive LocalStorage :=
| LsDenied
| LsNull
| LsObj (getItem setItem : Method).

(** [window.matchMedia]: missing, throwing, or answering the query
    ["(prefers-color-scheme: dark)"] with its [matches] flag. *)
Inductive MatchMedia :=
| MmAbsent
| MmThrows
| MmMatches (dark : bool).

(** One entry of the trace of accesses to the host. *)
Inductive Access :=
| Read (k : string)             (* getItem(k) was called *)
| Written (k v : string)        (* setItem(k, v) was called *)
| MediaQuery (q : string).      (* matchMedia(q) was called *)

Record World := mkWorld {
  window_defined : bool;         (* typeof window !== "undefined" *)
  document_defined : bool;       (* typeof document !== "undefined" *)
  localStorage : LocalStorage;   (* window.localStorage *)
  matchMedia : MatchMedia;       (* window.matchMedia *)
  store : gmap string string;    (* what the device has persisted *)
  root_dark : bool;              (* documentElement.classList has "dark" *)
  log : list Access;             (* accesses made so far, oldest first *)
}.

(** The result of running a piece of JavaScript: a value or an exception
    (every [catch] of the source ignores the exception's value). *)
Inductive Res (A : Type) := Ret (a : A) | Exn.
Arguments Ret {A} a.
Arguments Exn {A}.

(** Computations that read and change the world and may throw. *)
Definition M (A : Type) : Type := World -> Res A * World.

Definition ret {A} (a : A) : M A := fun w => (Ret a, w).
Definition throw {A} : M A := fun w => (Exn, w).
Definition bind {A B} (c : M A) (k : A -> M B) : M B :=
  fun w => match c w with
           | (Ret a, w') => k a w'
           | (Exn, w') => (Exn, w')
           end.
(** [try { c } catch { h }] *)
Definition try_catch {A} (c : M A) (h : M A) : M A :=
  fun w => match c w with
           | (Ret a, w') => (Ret a, w')
           | (Exn, w') => h w'
           end.

Declare Scope js_scope.
Delimit Scope js_scope with js.
Notation "x <- c ;;; k" := (bind c (fun x => k))
  (at level 100, c at next level, right associativity) : js_scope.
Notation "c ;;; k" := (bind c (fun _ => k))
  (at level 100, right associativity) : js_scope.

Definition get {A} (f : World -> A) : M A := fun w => (Ret (f w), w).
Definition record (a : Access) : M unit :=
  fun w => (Ret tt, mkWorld (window_defined w) (document_defined w)
                      (localStorage w) (matchMedia w) (store w)
                      (root_dark w) (log w ++ [a])).
Definition put_store (k v : string) : M unit :=
  fun w => (Ret tt, mkWorld (window_defined w) (document_defined w)
                      (localStorage w) (matchMedia w) (<[k:=v]> (store w))
                      (root_dark w) (log w)).
Definition set_root_dark (b : bool) : M unit :=
  fun w => (Ret tt, mkWorld (window_defined w) (document_defined w)
                      (localStorage w) (matchMedia w) (store w)
                      b (log w)).

Local Open Scope js_scope.

(** [window.localStorage?.getItem?.(k)]; [None] stands for both [null] (no
    entry) and [undefined] (a short-circuited [?.]). *)
Definition ls_getItem (k : string) : M (option string) :=
  ls <- get localStorage ;;;
  match ls with
  | LsDenied => throw
  | LsNull => ret None
  | LsObj MAbsent _ => ret None
  | LsObj MThrows _ => record (Read k) ;;; throw
  | LsObj MWorks _ => record (Read k) ;;; s <- get store ;;; ret (s !! k)
  end.

(** [window.localStorage] used as a condition. *)
Definition ls_truthy : M bool :=
  ls <- get localStorage ;;;
  match ls with
  | LsDenied => throw
  | LsNull => ret false
  | LsObj _ _ => ret true
  end.

(** [window.localStorage.setItem(k, v)] *)
Definition ls_setItem (k v : string) : M unit :=
  ls <- get localStorage ;;;
  match ls with
  | LsDenied => throw
  | LsNull => throw                       (* TypeError: reading a property of null *)
  | LsObj _ MAbsent => throw              (* TypeError: not a function *)
  | LsObj _ MThrows => record (Written k v) ;;; throw   (* e.g. quota exceeded *)
  | LsObj _ MWorks => record (Written k v) ;;; put_store k v
  end.

(** [window.matchMedia && window.matchMedia(q).matches] *)
Definition prefers (q : string) : M bool :=
  mm <- get matchMedia ;;;
  match mm with
  | MmAbsent => ret false
  | MmThrows => record (MediaQuery q) ;;; throw
  | MmMatches b => record (MediaQuery q) ;;; ret b
  end.

End Browser.

(** ** [useTheme] *)

Module Theme.
Import Browser.
Local Open Scope js_scope.

Definition key : string := "edusphar-theme".

(** [stored === "dark" || stored === "light"] *)
Definition is_theme (stored : option string) : bool :=
  match stored with
  | Some s => bool_decide (s = "dark") || bool_decide (s = "light")
  | None => false
  end.

(** The [try] block of [getInitial]: [Some t] when it executes
    [return t], [None] when control falls out of the block. *)
Definition getInitial_try : M (option string) :=
  win <- get window_defined ;;;
  if negb win then ret (Some "light") else
  stored <- ls_getItem key ;;;
  if is_theme stored then ret stored else
  dark <- prefers "(prefers-color-scheme: dark)" ;;;
  if dark then ret (Some "dark") else ret None.

Definition getInitial : M string :=
  r <- try_catch getInitial_try (ret None) ;;;
  ret (default "light" r).

(** The effect of [useTheme], run after mount and after every change of
    [theme]. *)
Definition effect (theme : string) : M unit :=
  (doc <- get document_defined ;;;
   if doc then set_root_dark (bool_decide (theme = "dark")) else ret tt) ;;;
  try_catch
    (win <- get window_defined ;;;
     if negb win then ret tt else
     ls <- ls_truthy ;;;
     if ls then ls_setItem key theme else ret tt)
    (ret tt).

(** The updater passed to [setTheme] by [toggle]. *)
Definition flip (t : string) : string :=
  if bool_decide (t = "dark") then "light" else "dark".

(** Mounting a component that calls [useTheme]: the state initialiser
    runs, then the effect; the result is the hook's [theme]. *)
Definition mount : M string :=
  theme <- getInitial ;;;
  effect theme ;;;
  ret theme.

(** [toggle()] followed by the re-render it causes; [flip t] never
    equals [t], so the effect always runs. *)
Definition toggle (theme : string) : M string :=
  effect (flip theme) ;;;
  ret (flip theme).

End Theme.

(** ** [AnnouncementBar] *)

Module Banner.
Import Browser.
Local Open Scope js_scope.

Definition storageKey : string := "edusphar-announce-dismissed".

(** The state initialiser of [dismissed]. *)
Definition getInitial : M bool :=
  try_catch
    (win <- get window_defined ;;;
     if negb win then ret false else
     stored <- ls_getItem storageKey ;;;
     ret (bool_decide (stored = Some "1")))
    (ret false).

(** [dismissed ? "1" : "0"] *)
Definition flag (dismissed : bool) : string :=
  if dismissed then "1" else "0".

(** The effect with dependency list [[dismissed]]: React runs it after the
    first render and after every render in which [dismissed] changed. *)
Definition effect (dismissed : bool) : M unit :=
  try_catch
    (win <- get window_defined ;;;
     if negb win then ret tt else
     ls <- ls_truthy ;;;
     if ls then ls_setItem storageKey (flag dismissed) else ret tt)
    (ret tt).

Definition mount : M bool :=
  dismissed <- getInitial ;;;
  effect dismissed ;;;
  ret dismissed.

(** The click handler of the Dismiss button, [setDismissed(true)], and the
    re-render it causes. Setting the state to the value it already has
    causes no re-render and no effect. *)
Definition dismiss (dismissed : bool) : M bool :=
  if dismissed then ret true else (effect true ;;; ret true).

(** [if (dismissed) return null] *)
Definition rendered (dismissed : bool) : bool := negb dismissed.

End Banner.

(** ** The page: two [useTheme] instances and the banner

    [EduSpharLanding] (line 1061) and [Header] (line 341) each call
    [useTheme], so the page holds two independent [theme] states; the
    floating button toggles the first, the header button the second. *)

Module Page.
Import Browser.
Local Open Scope js_scope.

Record Page := mkPage {
  page_theme : string;       (* useTheme of EduSpharLanding *)
  header_theme : string;     (* useTheme of Header *)
  dismissed : bool;          (* AnnouncementBar *)
}.

(** First render (state initialisers, parent before children) followed by
    the effects (children before parent). *)
Definition mount : M Page :=
  pt <- Theme.getInitial ;;;
  d <- Banner.getInitial ;;;
  ht <- Theme.getInitial ;;;
  Banner.effect d ;;;
  Theme.effect ht ;;;
  Theme.effect pt ;;;
  ret (mkPage pt ht d).

Inductive Event :=
| ToggleFloating      (* the floating theme button *)
| ToggleHeader        (* the header's theme button *)
| Dismiss.            (* the banner's Dismiss button *)

Definition handle (e : Event) (p : Page) : M Page :=
  match e with
  | ToggleFloating =>
      t <- Theme.toggle (page_theme p) ;;;
      ret (mkPage t (header_theme p) (dismissed p))
  | ToggleHeader =>
      t <- Theme.toggle (header_theme p) ;;;
      ret (mkPage (page_theme p) t (dismissed p))
  | Dismiss =>
      d <- Banner.dismiss (dismissed p) ;;;
      ret (mkPage (page_theme p) (header_theme p) d)
  end.

Fixpoint handle_all (es : list Event) (p : Page) : M Page :=
  match es with
  | [] => ret p
  | e :: es' => p' <- handle e p ;;; handle_all es' p'
  end.

(** A session: the page is mounted, then the user acts. *)
Definition session (es : list Event) : M Page :=
  p <- mount ;;; handle_all es p.

End Page.

(** ** [requestAnimationFrame]

    The browser keeps the handles of the callbacks requested for the next
    frame; handles are positive integers, handed out in increasing order. *)

Module Raf.

Record Queue := mkQueue {
  next_id : positive;          (* the handle the next request will get *)
  pending : list positive;     (* callbacks waiting for the next frame *)
}.

Definition empty : Queue := mkQueue 1%positive [].

(** [requestAnimationFrame(cb)]: the handle and the new queue. *)
Definition request (q : Queue) : positive * Queue :=
  (next_id q, mkQueue (Pos.succ (next_id q)) (pending q ++ [next_id q])).

(** [cancelAnimationFrame(id)]; a handle that is not pending is ignored. *)
Definition cancel (id : positive) (q : Queue) : Queue :=
  mkQueue (next_id q) (filter (fun i => i <> id) (pending q)).

(** [if (rafId) cancelAnimationFrame(rafId)]; handles are never 0, so the
    test only asks whether [rafId] is still [null]. *)
Definition cancel_if (rafId : option positive) (q : Queue) : Queue :=
  match rafId with
  | Some id => cancel id q
  | None => q
  end.

(** At a frame the browser takes the pending callbacks and starts an empty
    list for the requests made while they run. *)
Definition take_frame (q : Queue) : list positive * Queue :=
  (pending q, mkQueue (next_id q) []).

End Raf.

(** ** JavaScript numbers, as far as [useRafCounter] needs them

    A JavaScript number is an IEEE 754 double: a finite number with a
    53-bit significand, an infinity or [NaN]. Finite doubles are
    modelled by the rationals they denote, and every arithmetic
    operation computes the exact rational result and rounds it to the
    nearest double, ties to the even significand, as the hardware does.
    The sign of zero is not modelled: [-0] and [0] are the same number
    here, as they are for [===] and [<]; with a negative target the
    hook holds [-0] where the model has 0. The counters of the page
    never hold [-0]: their targets and durations are positive. *)

Module Num.
Local Open Scope Q_scope.

Inductive num :=
| Fin (q : Q)
| NaN
| Inf (negative : bool).

(** What a counter shows: [Math.floor] of a number. *)
Inductive display :=
| Int (z : Z)
| NotANumber
| Infinite (negative : bool).

Definition Qltb (x y : Q) : bool := negb (Qle_bool y x).

Definition pow2 (k : Z) : Q := 2 ^ k.

(** The binary exponent of a positive rational: the [e] with
    [2^(e-1) <= x < 2^e]. *)
Definition mag (x : Q) : Z :=
  let k := (Z.log2 (Qnum x) - Z.log2 (Zpos (Qden x)))%Z in
  if Qle_bool (pow2 k) x then (k + 1)%Z else k.

(** The nearest integer, ties to the even one. *)
Definition rne (q : Q) : Z :=
  let f := Qfloor q in
  match Qcompare (q - inject_Z f) (1 # 2) with
  | Lt => f
  | Gt => (f + 1)%Z
  | Eq => if Z.even f then f else (f + 1)%Z
  end.

(** The smallest binary exponent of a normal double, in the convention
    of [mag]: below [2^(emin-1) = 2^-1022] doubles are subnormal, spaced
    [2^-1074] apart. *)
Definition emin : Z := -1021.

(** A positive rational rounded to 53 significant bits (fewer in the
    subnormal range), the exponent left unbounded above. *)
Definition round_pos (x : Q) : Q :=
  let e := Z.max (mag x) emin in
  inject_Z (rne (x * pow2 (53 - e))) * pow2 (e - 53).

Definition round_fin (x : Q) : Q :=
  match Qcompare 0 x with
  | Eq => 0
  | Lt => round_pos x
  | Gt => - round_pos (- x)
  end.

(** An exact result rounded to a double: what rounds to [2^1024] or
    beyond overflows to an infinity. *)
Definition round (x : Q) : num :=
  let r := round_fin x in
  if Qle_bool (pow2 1024) (Qabs r) then Inf (Qltb r 0) else Fin r.

(** A rational that is a finite double. *)
Definition is_double (q : Q) : Prop :=
  round_fin q == q /\ Qabs q < pow2 1024.

(** [a - b] *)
Definition sub (a b : Q) : num := round (a - b).

(** [x / d] *)
Definition div (x : num) (d : Q) : num :=
  match x with
  | Fin q =>
      if Qeq_bool d 0 then
        if Qeq_bool q 0 then NaN else Inf (Qltb q 0)
      else round (q / d)
  | NaN => NaN
  | Inf neg => Inf (xorb neg (Qltb d 0))
  end.

(** [Math.min(x, 1)] *)
Definition min1 (x : num) : num :=
  match x with
  | Fin q => Fin (Qmin q 1)
  | NaN => NaN
  | Inf false => Fin 1
  | Inf true => Inf true
  end.

(** [x * t] for an integer [t] *)
Definition mul (x : num) (t : Z) : num :=
  match x with
  | Fin q => round (q * inject_Z t)
  | NaN => NaN
  | Inf neg =>
      if (t =? 0)%Z then NaN else Inf (xorb neg (t <? 0)%Z)
  end.

(** [Math.floor(x)] *)
Definition floor (x : num) : display :=
  match x with
  | Fin q => Int (Qfloor q)
  | NaN => NotANumber
  | Inf neg => Infinite neg
  end.

(** [x < 1] *)
Definition lt1 (x : num) : bool :=
  match x with
  | Fin q => Qltb q 1
  | NaN => false
  | Inf neg => neg
  end.

End Num.

(** ** [useRafCounter] *)

Module RafCounter.
Import Num.
Local Open Scope Q_scope.

Record Counter := mkCounter {
  target : Z;                  (* the prop of the last render *)
  duration : Q;                (* the prop of the last render *)
  val : display;               (* useState(0) *)
  targetRef : Z;               (* useRef(target).current *)
  start : option Q;            (* [let start = null] of the running effect *)
  rafId : option positive;     (* [let rafId = null] of the running effect *)
  raf : Raf.Queue;             (* the browser's frame queue *)
}.

Definition set_val (v : display) (c : Counter) : Counter :=
  mkCounter (target c) (duration c) v (targetRef c) (start c) (rafId c) (raf c).
Definition set_start (s : option Q) (c : Counter) : Counter :=
  mkCounter (target c) (duration c) (val c) (targetRef c) s (rafId c) (raf c).
Definition set_raf (id : option positive) (q : Raf.Queue) (c : Counter) : Counter :=
  mkCounter (target c) (duration c) (val c) (targetRef c) (start c) id q.

(** [rafId = requestAnimationFrame(step)] *)
Definition request_step (c : Counter) : Counter :=
  let (id, q) := Raf.request (raf c) in set_raf (Some id) q c.

(** [!start]: true for [null] and for the number 0. *)
Definition not_started (s : option Q) : bool :=
  match s with
  | None => true
  | Some q => Qeq_bool q 0
  end.

(** [function step(ts)] *)
Definition step (ts : Q) (c : Counter) : Counter :=
  let start' := if not_started (start c) then ts else default 0 (start c) in
  let elapsed := sub ts start' in
  let progress := min1 (div elapsed (duration c)) in
  let current := floor (mul progress (targetRef c)) in
  let c1 := set_val current (set_start (Some start') c) in
  if lt1 progress then request_step c1 else c1.

(** The second effect of the hook, with dependencies
    [[duration, target]]. *)
Definition run_effect (window_defined : bool) (c : Counter) : Counter :=
  if negb window_defined then set_val (Int (targetRef c)) c
  else request_step (set_raf None (raf c) (set_start None c)).

(** Its cleanup: [if (rafId) cancelAnimationFrame(rafId)]. *)
Definition cleanup (c : Counter) : Counter :=
  set_raf (rafId c) (Raf.cancel_if (rafId c) (raf c)) c.

(** First render and the two effects. *)
Definition mount (window_defined : bool) (tgt : Z) (dur : Q) : Counter :=
  run_effect window_defined
    (mkCounter tgt dur (Int 0) tgt None None Raf.empty).

(** A render with a new [target] prop: nothing happens when the
    dependencies are unchanged; otherwise the cleanup runs, then the first
    effect ([targetRef.current = target]), then the second effect. *)
Definition set_target (tgt : Z) (c : Counter) : Counter :=
  if bool_decide (tgt = target c) then c
  else
    let c1 := cleanup c in
    run_effect true
      (mkCounter tgt (duration c1) (val c1) tgt (start c1) (rafId c1) (raf c1)).

(** An animation frame at time [ts]: every pending callback runs. All
    pending callbacks are [step] of the running effect, see
    [cleanup_empties_queue] below. *)
Definition frame (ts : Q) (c : Counter) : Counter :=
  let (cbs, q) := Raf.take_frame (raf c) in
  fold_left (fun c' _ => step ts c') cbs (set_raf (rafId c) q c).

Definition frames (tss : list Q) (c : Counter) : Counter :=
  fold_left (fun c' ts => frame ts c') tss c.

(** The values shown after each of the frames [tss]. *)
Fixpoint displayed (tss : list Q) (c : Counter) : list display :=
  match tss with
  | [] => []
  | ts :: rest => val (frame ts c) :: displayed rest (frame ts c)
  end.

(** [min((t - t0) / duration, 1)] and
    [floor(min((t - t0) / duration, 1) * target)] as [step] computes them
    at time [t] when the clock started at [t0]: in double arithmetic,
    the difference, the quotient and the product each rounded. *)
Definition progress (dur t0 t : Q) : num := min1 (div (sub t t0) dur).

Definition expected (tgt : Z) (dur t0 t : Q) : display :=
  floor (mul (progress dur t0 t) tgt).

Inductive Event :=
| Frame (ts : Q)
| NewTarget (tgt : Z).

Definition handle (c : Counter) (e : Event) : Counter :=
  match e with
  | Frame ts => frame ts c
  | NewTarget tgt => set_target tgt c
  end.

(** The states a mounted counter can be in. *)
Inductive reachable : Counter -> Prop :=
| reach_mount tgt dur : reachable (mount true tgt dur)
| reach_handle c e : reachable c -> reachable (handle c e).

End RafCounter.

(** ** [useScrollHeader] *)

Module ScrollHeader.
Import Num.
Local Open Scope Q_scope.

Record Header := mkHeader {
  threshold : Q;               (* the hook's argument; [Header] passes 48 *)
  shrunk : bool;               (* useState(false) *)
  lastY : Q;                   (* [let lastY] of the effect *)
  rafId : option positive;     (* [let rafId = null] of the effect *)
  raf : Raf.Queue;             (* the browser's frame queue *)
  listening : bool;            (* is [onScroll] subscribed to "scroll" *)
  recomputed : nat;            (* how many times [setShrunk] was called *)
}.

(** [window.scrollY || 0]; [None] is a [scrollY] that is not a number. *)
Definition or_zero (scrollY : option Q) : Q := default 0 scrollY.

(** The effect, run once after the first render. *)
Definition mount (thr : Q) (scrollY : option Q) : Header :=
  mkHeader thr false (or_zero scrollY) None Raf.empty true 0.

(** The frame callback [() => setShrunk(lastY > threshold)]. *)
Definition callback (h : Header) : Header :=
  mkHeader (threshold h) (Qltb (threshold h) (lastY h)) (lastY h)
           (rafId h) (raf h) (listening h) (S (recomputed h)).

(** [onScroll], when the window's [scrollY] is [scrollY]. *)
Definition onScroll (scrollY : option Q) (h : Header) : Header :=
  let q := Raf.cancel_if (rafId h) (raf h) in
  let (id, q') := Raf.request q in
  mkHeader (threshold h) (shrunk h) (or_zero scrollY) (Some id) q'
           (listening h) (recomputed h).

(** A scroll event reaches [onScroll] only while it is subscribed. *)
Definition scroll (scrollY : option Q) (h : Header) : Header :=
  if listening h then onScroll scrollY h else h.

(** An animation frame: every pending callback runs. *)
Definition frame (h : Header) : Header :=
  let (cbs, q) := Raf.take_frame (raf h) in
  fold_left (fun h' _ => callback h') cbs
    (mkHeader (threshold h) (shrunk h) (lastY h) (rafId h) q
              (listening h) (recomputed h)).

(** The cleanup of the effect. *)
Definition unmount (h : Header) : Header :=
  mkHeader (threshold h) (shrunk h) (lastY h) (rafId h)
           (Raf.cancel_if (rafId h) (raf h)) false (recomputed h).

Inductive Event :=
| Scroll (scrollY : option Q)
| Frame.

Definition handle (h : Header) (e : Event) : Header :=
  match e with
  | Scroll y => scroll y h
  | Frame => frame h
  end.

Definition run (es : list Event) (h : Header) : Header :=
  fold_left handle es h.

End ScrollHeader.

(** ** The mobile sheet of [Header] and its focus trap *)

Module NavSheet.

(** Keys as the handler distinguishes them. *)
Inductive Key :=
| Escape
| Tab (shiftKey : bool)
| OtherKey.

Inductive Event :=
| OpenMenu          (* the "Open menu" button: setMobileOpen(true) *)
| CloseMenu         (* the "Close menu" button: setMobileOpen(false) *)
| OverlayClick      (* the backdrop: setMobileOpen(false) *)
| KeyDown (k : Key)
| PressPanel.       (* a pointer press on the panel, off its links and buttons *)

Section Sheet.
Context {Elem : Type} `{EqDecision Elem}.

(** The document, in tab order: the focusable elements of the page that
    precede the sheet, those matched inside the sheet by the selector
    of line 351 (present only while the sheet is rendered), and those of
    the page that follow it. *)
Variables before sheet after : list Elem.

Record Nav := mkNav {
  mobileOpen : bool;              (* useState(false) *)
  activeElement : option Elem;    (* document.activeElement; None: no element has focus *)
  prev : option Elem;             (* [const prev] of the running effect *)
  listening : bool;               (* is [onKey] attached to "keydown" *)
}.

(** [sheetRef.current?.querySelectorAll(...)] while the sheet is
    rendered. *)
Definition focusable : list Elem := sheet.

Definition tab_order (open : bool) : list Elem :=
  if open then before ++ sheet ++ after else before ++ after.

(** [arr.indexOf(x)]: the first index holding [x], or -1. *)
Fixpoint indexOf (arr : list Elem) (x : option Elem) : Z :=
  match arr with
  | [] => -1
  | y :: rest =>
      if bool_decide (x = Some y) then 0
      else let i := indexOf rest x in
           if (i <? 0)%Z then -1 else (i + 1)%Z
  end.

(** [arr[i]] *)
Definition at_index (arr : list Elem) (i : Z) : option Elem :=
  if (i <? 0)%Z then None else arr !! Z.to_nat i.

Definition focus (e : option Elem) (n : Nav) : Nav :=
  match e with
  | Some _ => mkNav (mobileOpen n) e (prev n) (listening n)
  | None => n                      (* [x?.focus()] on a missing [x] *)
  end.

(** The browser's own reaction to Tab: focus moves to the neighbour in
    tab order; from the last element forwards (or the first backwards)
    it leaves the document; with no element focused it enters the
    document at its first (or last) element. *)
Definition tab_default (shiftKey : bool) (n : Nav) : Nav :=
  let order := tab_order (mobileOpen n) in
  let i := indexOf order (activeElement n) in
  let j := if (i <? 0)%Z then
             (if shiftKey then Z.of_nat (length order) - 1 else 0)%Z
           else (if shiftKey then i - 1 else i + 1)%Z in
  mkNav (mobileOpen n) (at_index order j) (prev n) (listening n).

(** The effect with dependencies [[mobileOpen]], run when [mobileOpen]
    became true. *)
Definition run_effect (n : Nav) : Nav :=
  let n1 := mkNav (mobileOpen n) (activeElement n) (activeElement n) (listening n) in
  let n2 := focus (head focusable) n1 in
  mkNav (mobileOpen n2) (activeElement n2) (prev n2) true.

(** Its cleanup. *)
Definition cleanup (n : Nav) : Nav :=
  focus (prev n) (mkNav (mobileOpen n) (activeElement n) (prev n) false).

(** [setMobileOpen(b)] and the re-render it causes. *)
Definition setMobileOpen (b : bool) (n : Nav) : Nav :=
  if bool_decide (b = mobileOpen n) then n
  else
    let n1 := mkNav b (activeElement n) (prev n) (listening n) in
    if b then run_effect n1 else cleanup n1.

(** The body of [onKey] for the Tab key: the new state and whether
    [preventDefault] was called. *)
Definition trap (shiftKey : bool) (n : Nav) : Nav * bool :=
  if (0 <? Z.of_nat (length focusable))%Z then
    let arr := focusable in
    let idx := indexOf arr (activeElement n) in
    if shiftKey && (idx =? 0)%Z then
      (focus (at_index arr (Z.of_nat (length arr) - 1)) n, true)
    else if negb shiftKey && (idx =? Z.of_nat (length arr) - 1)%Z then
      (focus (at_index arr 0) n, true)
    else (n, false)
  else (n, false).

(** A key press: [onKey] runs if it is attached, then the browser's
    default action unless it was prevented. *)
Definition keydown (k : Key) (n : Nav) : Nav :=
  match k with
  | Escape => if listening n then setMobileOpen false n else n
  | Tab shiftKey =>
      let (n1, prevented) := if listening n then trap shiftKey n else (n, false) in
      if prevented then n1 else tab_default shiftKey n1
  | OtherKey => n
  end.

(** A pointer press on a part of the open sheet that cannot take focus:
    the title or the padding of the panel of lines 459-496, which has no
    click handler of its own and is not inside the backdrop. The browser
    takes focus off the focused element; [document.activeElement] is
    then [body], which the selector of line 351 does not match. With the
    sheet closed there is no panel to press. *)
Definition press_panel (n : Nav) : Nav :=
  if mobileOpen n then mkNav true None (prev n) (listening n) else n.

Definition handle (n : Nav) (e : Event) : Nav :=
  match e with
  | OpenMenu => setMobileOpen true n
  | CloseMenu => setMobileOpen false n
  | OverlayClick => setMobileOpen false n
  | KeyDown k => keydown k n
  | PressPanel => press_panel n
  end.

Definition run (es : list Event) (n : Nav) : Nav := fold_left handle es n.

(** The page before the menu was ever opened, with focus on [e]. *)
Definition closed (e : option Elem) : Nav := mkNav false e None false.

End Sheet.

(** The sheet as rendered by lines 459-496: the selector matches, in
    document order, the "Close menu" button, the four links of the nav
    and the "Sign up free" button. *)
Definition sheet_of_header : list string :=
  ["Close menu"; "#courses"; "#programs"; "#pricing"; "#about"; "Sign up free"].

End NavSheet.

(** ** [cn], the class-name helper *)

Module ClassNames.

(** An argument of [cn] as the call sites pass them: a string, or a value
    that is not a string ([false], [null], [undefined]), written [None]. *)
Definition part := option string.

(** [Boolean(p)]: the empty string is falsy like the non-strings. *)
Definition truthy (p : part) : bool :=
  match p with
  | Some s => negb (String.eqb s "")
  | None => false
  end.

(** [parts.filter(Boolean)], keeping the strings that survive. *)
Fixpoint filter_Boolean (parts : list part) : list string :=
  match parts with
  | [] => []
  | Some s :: rest =>
      if truthy (Some s) then s :: filter_Boolean rest else filter_Boolean rest
  | None :: rest => filter_Boolean rest
  end.

(** [function cn(...parts)]: [parts.filter(Boolean).join(" ")]. *)
Definition cn (parts : list part) : string :=
  String.concat " " (filter_Boolean parts).

End ClassNames.

(** ** The search form of [Hero] *)

Module HeroSearch.

Definition chips : list string :=
  ["React"; "Node.js"; "Machine Learning"; "Product Design"].

Record Hero := mkHero {
  q : string;                  (* useState("") *)
  alerts : list string;        (* what [alert] has shown, oldest first *)
}.

Definition initial : Hero := mkHero "" [].

Inductive Event :=
| Change (value : string)      (* typing: setQ(e.target.value) *)
| Chip (c : string)            (* a chip: setQ(c) *)
| Submit.                      (* the form's onSubmit *)

(** [q || "popular topics"] *)
Definition or_popular (query : string) : string :=
  if String.eqb query "" then "popular topics" else query.

Definition handle (h : Hero) (e : Event) : Hero :=
  match e with
  | Change value => mkHero value (alerts h)
  | Chip c => mkHero c (alerts h)
  | Submit =>
      mkHero (q h) (alerts h ++ [("Search: " ++ or_popular (q h))%string])%list
  end.

Definition run (es : list Event) (h : Hero) : Hero := fold_left handle es h.

End HeroSearch.

(** ** The chips of [Categories] *)

Module Categories.

Definition CATEGORIES : list string :=
  ["Data Science"; "Web Dev"; "AI/ML"; "Cloud"; "Product"; "Design"; "Finance"].

(** The click handler of chip [c]:
    [setSelected(active ? null : c)] with [active = (selected === c)]. *)
Definition click (selected : option string) (c : string) : option string :=
  if bool_decide (selected = Some c) then None else Some c.

(** The [aria-pressed] flags of the rendered chips, in order. *)
Definition pressed (selected : option string) : list (string * bool) :=
  map (fun c => (c, bool_decide (selected = Some c))) CATEGORIES.

(** The chips rendered as active. *)
Definition active_chips (selected : option string) : list string :=
  map fst (filter (fun cb => snd cb = true) (pressed selected)).

Definition clicks (cs : list string) (selected : option string) : option string :=
  fold_left click cs selected.

End Categories.

(** ** [App.jsx]: the placeholder request *)

Module App.

(** How the GET request made by the effect ends: with a response whose
    [data.message] is a string or is missing, or with a failure. *)
Inductive Outcome :=
| Resolved (message : option string)
| Rejected.

Record App := mkApp {
  data : option string;        (* useState(null) *)
  errors : nat;                (* calls of console.error *)
}.

Definition initial : App := mkApp None 0.

(** [.then((res) => setData(res.data.message))] and
    [.catch((err) => console.error(err))]. *)
Definition settle (o : Outcome) (a : App) : App :=
  match o with
  | Resolved message => mkApp message (errors a)
  | Rejected => mkApp (data a) (S (errors a))
  end.

(** [{data ? data : "Loading..."}] *)
Definition heading (a : App) : string :=
  match data a with
  | Some s => if String.eqb s "" then "Loading..." else s
  | None => "Loading..."
  end.

End App.

(* ===================================================================== *)
(** * Part II: the vocabulary of the properties                           *)
(* ===================================================================== *)

Import Browser.

(** ** Theme preference and banner: storage and the OS signal *)

Section StorageProperties.

(** Does the OS signal report a dark colour scheme? A [matchMedia] that is
    missing or throws reports nothing. *)
Definition reports_dark (mm : MatchMedia) : bool :=
  match mm with
  | MmMatches dark => dark
  | MmAbsent | MmThrows => false
  end.

(** The precedence rule in the words of the specification: a valid
    persisted value, else the OS signal, else "light". *)
Definition precedence (persisted : option string) (os_dark : bool) : string :=
  match persisted with
  | Some v =>
      if bool_decide (v = "dark") then "dark"
      else if bool_decide (v = "light") then "light"
      else if os_dark then "dark" else "light"
  | None => if os_dark then "dark" else "light"
  end.

(** Reading from storage throws: the access to [window.localStorage] is
    denied, or [getItem] throws. *)
Definition read_throws (ls : LocalStorage) : Prop :=
  ls = LsDenied \/ exists s, ls = LsObj MThrows s.

(** The accesses a run has added to the trace. *)
Definition added (w w' : World) (l : list Access) : Prop :=
  log w' = (log w ++ l)%list.

(** An access to the store stays within the two given keys and writes
    only the values that belong to each. *)
Definition access_within (theme_key banner_key : string) (a : Access) : Prop :=
  match a with
  | Read k => k = theme_key \/ k = banner_key
  | Written k v =>
      (k = theme_key /\ (v = "dark" \/ v = "light")) \/
      (k = banner_key /\ (v = "0" \/ v = "1"))
  | MediaQuery _ => True
  end.

(** A world whose browser blocks storage while the OS asks for dark. *)
Definition blocked_dark : World :=
  mkWorld true true LsDenied (MmMatches true) ∅ false [].

(** A first visit: working storage, nothing persisted yet. *)
Definition first_visit (os_dark : bool) : World :=
  mkWorld true true (LsObj MWorks MWorks) (MmMatches os_dark) ∅ false [].

(** A later visit with [v] persisted as the theme. *)
Definition later_visit (v : string) (os_dark : bool) : World :=
  mkWorld true true (LsObj MWorks MWorks) (MmMatches os_dark)
          {[ Theme.key := v ]} false [].

End StorageProperties.

(** A computation that always returns, with a result satisfying [P], and
    whose accesses all stay within the two keys that the header comment of
    the source lists. *)
Definition within_keys {A} (P : A -> Prop) (c : M A) : Prop :=
  forall w, exists a w' l, c w = (Ret a, w') /\ P a /\ added w w' l /\
    Forall (access_within Theme.key Banner.storageKey) l.

Definition is_theme_value (t : string) : Prop := t = "dark" \/ t = "light".

Definition themes_valid (p : Page.Page) : Prop :=
  is_theme_value (Page.page_theme p) /\ is_theme_value (Page.header_theme p).

(** Vocabulary for the animated counter. *)

Section CounterProperties.
Import Num RafCounter.
Local Open Scope Q_scope.

(** The order of the numbers: [-Infinity] below and [Infinity] above the
    finite ones, [NaN] compared with nothing. *)
Definition num_le (x y : num) : Prop :=
  match x, y with
  | Fin a, Fin b => a <= b
  | Fin _, Inf false => True
  | Inf true, Fin _ => True
  | Inf true, Inf _ => True
  | Inf false, Inf false => True
  | _, _ => False
  end.

(** The formula of the specification read over the rationals, without
    rounding: [floor(min(1, (t - t0) / duration) * target)]. *)
Definition real_formula (tgt : Z) (dur t0 t : Q) : Z :=
  Qfloor (Qmin ((t - t0) / dur) 1 * inject_Z tgt).

(** Timestamps that never go back, starting from [t]. *)
Fixpoint nondecreasing_from (t : Q) (tss : list Q) : Prop :=
  match tss with
  | [] => True
  | t' :: rest => t <= t' /\ nondecreasing_from t' rest
  end.

(** A freshly started animation: the effect has just run, its one frame
    request is pending and no frame has fired yet. *)
Definition fresh (c : Counter) : Prop :=
  start c = None /\ targetRef c = target c /\
  exists id, rafId c = Some id /\ Raf.pending (raf c) = [id] /\
             (id < Raf.next_id (raf c))%positive.

(** An animation that started at [t0] and whose last frame fired at [t]:
    it shows the expected value, and either the progress computed at [t]
    was below 1 and a frame is pending, or it was not and nothing is
    pending. *)
Definition animating (t0 t : Q) (c : Counter) : Prop :=
  start c = Some t0 /\ targetRef c = target c /\
  val c = expected (target c) (duration c) t0 t /\
  ((lt1 (progress (duration c) t0 t) = true /\
    exists id, rafId c = Some id /\ Raf.pending (raf c) = [id] /\
               (id < Raf.next_id (raf c))%positive) \/
   (lt1 (progress (duration c) t0 t) = false /\ Raf.pending (raf c) = [])).

(** At most the callback of the running effect is pending. *)
Definition one_pending (c : Counter) : Prop :=
  Raf.pending (raf c) = [] \/
  exists id, rafId c = Some id /\ Raf.pending (raf c) = [id] /\
             (id < Raf.next_id (raf c))%positive.

End CounterProperties.

(** Vocabulary for the scroll-driven header. *)

Section HeaderVocabulary.
Import Num ScrollHeader.
Local Open Scope Q_scope.

(** A mounted header: subscribed, with at most the last request pending. *)
Definition header_ok (thr : Q) (h : Header) : Prop :=
  threshold h = thr /\ listening h = true /\
  (Raf.pending (raf h) = [] \/
   exists id, rafId h = Some id /\ Raf.pending (raf h) = [id]).

End HeaderVocabulary.

(** Vocabulary for the mobile sheet. *)

Section SheetProperties.
Import NavSheet.
Context {Elem : Type} `{EqDecision Elem}.
Variables before sheet after : list Elem.

(** While the sheet is open the handler is attached and focus is on one
    of the sheet's focusable elements. *)
Definition trapped (n : Nav) : Prop :=
  mobileOpen n = true ->
  listening n = true /\ exists e, activeElement n = Some e /\ e ∈ sheet.

(** The events that ask for the sheet to close. *)
Definition closes (e : Event) : bool :=
  match e with
  | CloseMenu | OverlayClick | KeyDown Escape => true
  | OpenMenu | KeyDown (Tab _) | KeyDown OtherKey | PressPanel => false
  end.

End SheetProperties.

(** The sheet of the page: a tab order around [sheet_of_header]. *)
Definition header_before : list string :=
  ["Skip to content"; "EduSphar"; "Toggle theme"; "Open menu"].
Definition header_after : list string :=
  ["Start learning"; "Watch demo"].

(** Vocabulary for the further properties of the storage-backed hooks. *)

(** Storage that can be read and written. *)
Definition works (w : World) : Prop :=
  window_defined w = true /\ localStorage w = LsObj MWorks MWorks.

(** [setItem] reaches the store. *)
Definition writable (w : World) : Prop :=
  window_defined w = true /\ exists g, localStorage w = LsObj g MWorks.

(** The persisted flag cannot be read: there is no window, the storage is
    denied or missing, or [getItem] is missing or throws. *)
Definition unreadable (w : World) : Prop :=
  window_defined w = false \/
  match localStorage w with
  | LsObj MWorks _ => False
  | _ => True
  end.

(** A reload: the same browser and the same persisted entries, a new
    document, and whatever the OS signal is by then. *)
Definition reload (w : World) (mm : MatchMedia) : World :=
  mkWorld (window_defined w) (document_defined w) (localStorage w) mm
          (store w) false [].

(** What a run may do to the world besides logging and setting the root's
    class: the browser is the same, entries under other keys keep their
    values, no entry disappears, and without a working [setItem] the store
    is the same. *)
Definition store_framed (w w' : World) : Prop :=
  window_defined w' = window_defined w /\
  document_defined w' = document_defined w /\
  localStorage w' = localStorage w /\
  matchMedia w' = matchMedia w /\
  (forall k, k <> Theme.key -> k <> Banner.storageKey ->
             store w' !! k = store w !! k) /\
  (forall k, is_Some (store w !! k) -> is_Some (store w' !! k)) /\
  (~ writable w -> store w' = store w).

Definition framed {A} (c : M A) : Prop :=
  forall w, store_framed w (snd (c w)).

(** With working storage the store mirrors the states of the page: the
    banner's entry is the flag of [dismissed], the theme's entry is the
    theme of one of the two [useTheme] instances. *)
Definition mirrored (p : Page.Page) (w : World) : Prop :=
  works w /\
  store w !! Banner.storageKey = Some (Banner.flag (Page.dismissed p)) /\
  (store w !! Theme.key = Some (Page.page_theme p) \/
   store w !! Theme.key = Some (Page.header_theme p)).

(** Two worlds on the same device: the same browser and the same store;
    the document's class and the trace may differ. *)
Definition same_device (w w' : World) : Prop :=
  window_defined w' = window_defined w /\
  localStorage w' = localStorage w /\
  matchMedia w' = matchMedia w /\
  store w' = store w.

(* ===================================================================== *)
(** * Part III: proofs                                                    *)
(* ===================================================================== *)

Ltac js_unfold :=
  unfold Page.session, Page.mount, Page.handle,
         Theme.mount, Theme.toggle, Theme.getInitial, Theme.getInitial_try,
         Theme.effect, Banner.mount, Banner.dismiss, Banner.getInitial,
         Banner.effect, try_catch, bind, get, ls_getItem, ls_truthy,
         ls_setItem, prefers, record, put_store, set_root_dark, ret, throw.

Ltac world_cases w :=
  destruct w as [win doc ls mm st rd lg];
  destruct win, doc, ls as [| | [] []], mm as [| | []].

Ltac solve_added :=
  simpl; rewrite <- ?app_assoc;
  first [ reflexivity | symmetry; apply app_nil_r ].

Ltac solve_within :=
  repeat match goal with |- Forall _ _ => constructor end;
  simpl; intuition (auto; congruence).

Lemma is_theme_true (stored : option string) :
  Theme.is_theme stored = true -> stored = Some "dark" \/ stored = Some "light".
Proof.
  destruct stored as [v|]; simpl; [|discriminate].
  intros H. apply orb_true_iff in H as [H|H]; apply bool_decide_eq_true in H;
    subst; auto.
Qed.

Lemma precedence_theme (stored : option string) (os_dark : bool) :
  Theme.is_theme stored = true -> Some (precedence stored os_dark) = stored.
Proof.
  intros H. apply is_theme_true in H as [-> | ->]; reflexivity.
Qed.

Lemma precedence_other (stored : option string) (os_dark : bool) :
  Theme.is_theme stored = false ->
  precedence stored os_dark = if os_dark then "dark" else "light".
Proof.
  destruct stored as [v|]; simpl; [|reflexivity].
  intros H. apply orb_false_iff in H as [H1 H2].
  rewrite H1, H2. reflexivity.
Qed.

Lemma flip_theme (t : string) : Theme.flip t = "dark" \/ Theme.flip t = "light".
Proof. unfold Theme.flip. case_bool_decide; auto. Qed.

Lemma flip_changes (t : string) : Theme.flip t <> t.
Proof. unfold Theme.flip. case_bool_decide; subst; [discriminate | congruence]. Qed.

(** [getInitial] of [useTheme] always returns, and returns a theme; it reads
    at most the theme key. *)
Lemma theme_getInitial_returns (w : World) :
  exists t w' l, Theme.getInitial w = (Ret t, w') /\
    (t = "dark" \/ t = "light") /\
    added w w' l /\ Forall (access_within Theme.key Banner.storageKey) l.
Proof.
  unfold added.
  destruct (Theme.is_theme (store w !! Theme.key)) eqn:E.
  - apply is_theme_true in E.
    world_cases w; simpl in E; js_unfold; simpl;
      try (destruct E as [E|E]; rewrite E; simpl);
      eexists _, _, _; (split; [reflexivity|]); simpl;
      (split; [auto|]); (split; [solve_added|]); solve_within.
  - world_cases w; simpl in E; js_unfold; simpl; try rewrite E; simpl;
      eexists _, _, _; (split; [reflexivity|]); simpl;
      (split; [auto|]); (split; [solve_added|]); solve_within.
Qed.

(** The effect of [useTheme] always returns; it sets the root's class from
    the in-memory theme and writes at most the theme key. *)
Lemma theme_effect_returns (t : string) (w : World) :
  (t = "dark" \/ t = "light") ->
  exists w' l, Theme.effect t w = (Ret tt, w') /\
    root_dark w' = (if document_defined w then bool_decide (t = "dark")
                    else root_dark w) /\
    added w w' l /\ Forall (access_within Theme.key Banner.storageKey) l.
Proof.
  intros Ht. unfold added.
  world_cases w; js_unfold; simpl;
    eexists _, _; (split; [reflexivity|]); simpl;
    (split; [reflexivity|]); (split; [solve_added|]); solve_within.
Qed.

(** The root's class follows the theme whatever string the state holds. *)
Lemma theme_effect_total (t : string) (w : World) :
  exists w', Theme.effect t w = (Ret tt, w') /\
    root_dark w' = (if document_defined w then bool_decide (t = "dark")
                    else root_dark w).
Proof.
  world_cases w; js_unfold; simpl; eexists; split; reflexivity.
Qed.

Lemma banner_getInitial_returns (w : World) :
  exists d w' l, Banner.getInitial w = (Ret d, w') /\
    added w w' l /\ Forall (access_within Theme.key Banner.storageKey) l.
Proof.
  unfold added.
  world_cases w; js_unfold; simpl;
    eexists _, _, _; (split; [reflexivity|]); simpl;
    (split; [solve_added|]); solve_within.
Qed.

Lemma banner_flag_values (d : bool) : Banner.flag d = "0" \/ Banner.flag d = "1".
Proof. destruct d; simpl; auto. Qed.

Lemma banner_effect_returns (d : bool) (w : World) :
  exists w' l, Banner.effect d w = (Ret tt, w') /\
    added w w' l /\ Forall (access_within Theme.key Banner.storageKey) l.
Proof.
  unfold added. pose proof (banner_flag_values d) as Hd.
  world_cases w; js_unfold; simpl;
    eexists _, _; (split; [reflexivity|]); simpl;
    (split; [solve_added|]); solve_within.
Qed.

Lemma added_trans (w1 w2 w3 : World) (l1 l2 : list Access) :
  added w1 w2 l1 -> added w2 w3 l2 -> added w1 w3 (l1 ++ l2).
Proof.
  unfold added. intros H1 H2. rewrite H2, H1. symmetry. apply app_assoc.
Qed.

(** ** C1, C10: the initial theme *)

(** C1 (as amended). Whenever the read of the persisted theme completes
    with the value [stored] (the window exists and neither the access to
    the storage nor [getItem] throws), [getInitial] returns by precedence
    persisted > OS > default: a stored "dark" or "light" is returned as it
    is, whatever the OS signal says; otherwise the result is "dark" when
    the OS signal reports dark and "light" if not. *)
Theorem C1_getInitial_precedence (w w1 : World) (stored : option string) :
  window_defined w = true ->
  ls_getItem Theme.key w = (Ret stored, w1) ->
  fst (Theme.getInitial w) =
    Ret (precedence stored (reports_dark (matchMedia w))).
Proof.
  intros Hwin Hread.
  destruct (Theme.is_theme stored) eqn:E.
  - pose proof (precedence_theme stored (reports_dark (matchMedia w)) E) as Hp.
    revert Hp. generalize (precedence stored (reports_dark (matchMedia w))).
    intros p Hp. subst stored.
    world_cases w; try discriminate Hwin; revert Hread; js_unfold; simpl;
      intros Hread; inversion Hread as [[Hs Hw]]; subst;
      try discriminate E; rewrite ?Hs, ?E; simpl; try rewrite Hs; reflexivity.
  - rewrite (precedence_other _ _ E).
    world_cases w; try discriminate Hwin; revert Hread; js_unfold; simpl;
      intros Hread; inversion Hread as [[Hs Hw]]; subst;
      rewrite ?Hs, ?E; simpl; reflexivity.
Qed.

Lemma C1_getInitial_precedence_witness :
  fst (Theme.getInitial (later_visit "light" true)) = Ret "light".
Proof.
  apply (C1_getInitial_precedence (later_visit "light" true)
           (snd (ls_getItem Theme.key (later_visit "light" true)))
           (Some "light")).
  - reflexivity.
  - vm_compute. reflexivity.
Defined.

(** C1 fails as stated: with storage blocked nothing valid is persisted and
    the OS signal reports dark, yet [getInitial] returns "light". *)
Lemma C1_blocked_storage_ignores_os :
  store blocked_dark !! Theme.key = None /\
  reports_dark (matchMedia blocked_dark) = true /\
  fst (Theme.getInitial blocked_dark) = Ret "light" /\
  fst (Theme.getInitial blocked_dark) <>
    Ret (precedence (store blocked_dark !! Theme.key)
                    (reports_dark (matchMedia blocked_dark))).
Proof.
  repeat split; try reflexivity. vm_compute. discriminate.
Qed.

(** C10. If reading the persisted theme throws, [getInitial] returns
    "light" and the OS signal is not consulted: no media query is added to
    the trace, whatever [matchMedia] would have answered. *)
Theorem C10_read_failure_skips_os (w : World) :
  window_defined w = true ->
  read_throws (localStorage w) ->
  exists w', Theme.getInitial w = (Ret "light", w') /\
    forall q, MediaQuery q ∈ log w' -> MediaQuery q ∈ log w.
Proof.
  intros Hwin [Hls | [s Hls]];
    destruct w as [win doc ls mm st rd lg]; simpl in *; subst;
    js_unfold; simpl; eexists; (split; [reflexivity|]); simpl; intros q Hq.
  - exact Hq.
  - apply elem_of_app in Hq as [Hq | Hq]; [exact Hq|].
    apply list_elem_of_singleton in Hq. discriminate.
Qed.

Lemma C10_read_failure_skips_os_witness :
  exists w', Theme.getInitial blocked_dark = (Ret "light", w') /\
    forall q, MediaQuery q ∈ log w' -> MediaQuery q ∈ log blocked_dark.
Proof.
  apply (C10_read_failure_skips_os blocked_dark).
  - reflexivity.
  - left. reflexivity.
Defined.

(** ** C8: storage failures never surface *)

(** C8. In every world, so in particular when [localStorage] is missing,
    denied or throwing, the three operations of [useTheme] return normally:
    [getInitial] yields a theme, the persisting effect completes and leaves
    the root's class equal to the in-memory theme, and [toggle] yields the
    flipped theme with the root's class following it. *)
Theorem C8_theme_operations_never_throw (w : World) (t : string) :
  (exists t0 w0, Theme.getInitial w = (Ret t0, w0) /\
     (t0 = "dark" \/ t0 = "light")) /\
  (exists w1, Theme.effect t w = (Ret tt, w1) /\
     root_dark w1 = (if document_defined w then bool_decide (t = "dark")
                     else root_dark w)) /\
  (exists w2, Theme.toggle t w = (Ret (Theme.flip t), w2) /\
     root_dark w2 = (if document_defined w
                     then bool_decide (Theme.flip t = "dark")
                     else root_dark w)).
Proof.
  split; [|split].
  - destruct (theme_getInitial_returns w) as (t0 & w0 & l & H & Ht & _).
    eauto.
  - apply theme_effect_total.
  - destruct (theme_effect_total (Theme.flip t) w) as (w2 & H & Hr).
    exists w2. split; [|exact Hr].
    unfold Theme.toggle, bind. rewrite H. reflexivity.
Qed.

(** With storage blocked the store is left alone and the theme still
    flips. *)
Example toggle_with_blocked_storage :
  exists w', Theme.toggle "light" blocked_dark = (Ret "dark", w') /\
    root_dark w' = true /\ store w' = store blocked_dark.
Proof. eexists. vm_compute. repeat split. Qed.

(** ** C7: the keys of the store *)

Lemma within_keys_ret {A} (P : A -> Prop) (a : A) :
  P a -> within_keys P (ret a).
Proof.
  intros Ha w. exists a, w, []. repeat split; auto.
  unfold added. symmetry. apply app_nil_r.
Qed.

Lemma within_keys_bind {A B} (P : A -> Prop) (Q : B -> Prop)
      (c : M A) (k : A -> M B) :
  within_keys P c -> (forall a, P a -> within_keys Q (k a)) ->
  within_keys Q (bind c k).
Proof.
  intros Hc Hk w.
  destruct (Hc w) as (a & w1 & l1 & E1 & Ha & Hl1 & Hf1).
  destruct (Hk a Ha w1) as (b & w2 & l2 & E2 & Hb & Hl2 & Hf2).
  exists b, w2, (l1 ++ l2)%list. unfold bind. rewrite E1.
  repeat split; auto.
  - eapply added_trans; eauto.
  - apply Forall_app; auto.
Qed.

Lemma within_keys_theme_getInitial : within_keys is_theme_value Theme.getInitial.
Proof.
  intros w. destruct (theme_getInitial_returns w) as (t & w' & l & H).
  exists t, w', l. exact H.
Qed.

Lemma within_keys_theme_effect (t : string) :
  is_theme_value t -> within_keys (fun _ => True) (Theme.effect t).
Proof.
  intros Ht w.
  destruct (theme_effect_returns t w Ht) as (w' & l & H & _ & Hl & Hf).
  exists tt, w', l. auto.
Qed.

Lemma within_keys_banner_getInitial : within_keys (fun _ => True) Banner.getInitial.
Proof.
  intros w. destruct (banner_getInitial_returns w) as (d & w' & l & H & Hl & Hf).
  exists d, w', l. auto.
Qed.

Lemma within_keys_banner_effect (d : bool) :
  within_keys (fun _ => True) (Banner.effect d).
Proof.
  intros w. destruct (banner_effect_returns d w) as (w' & l & H & Hl & Hf).
  exists tt, w', l. auto.
Qed.

Lemma within_keys_theme_toggle (t : string) :
  within_keys is_theme_value (Theme.toggle t).
Proof.
  unfold Theme.toggle.
  eapply within_keys_bind.
  - apply within_keys_theme_effect, flip_theme.
  - intros _ _. apply within_keys_ret, flip_theme.
Qed.

Lemma within_keys_mount : within_keys themes_valid Page.mount.
Proof.
  unfold Page.mount.
  eapply within_keys_bind; [apply within_keys_theme_getInitial|].
  intros pt Hpt.
  eapply within_keys_bind; [apply within_keys_banner_getInitial|].
  intros d _.
  eapply within_keys_bind; [apply within_keys_theme_getInitial|].
  intros ht Hht.
  eapply within_keys_bind; [apply within_keys_banner_effect|].
  intros _ _.
  eapply within_keys_bind; [apply (within_keys_theme_effect ht Hht)|].
  intros _ _.
  eapply within_keys_bind; [apply (within_keys_theme_effect pt Hpt)|].
  intros _ _.
  apply within_keys_ret. split; assumption.
Qed.

Lemma within_keys_handle (e : Page.Event) (p : Page.Page) :
  themes_valid p -> within_keys themes_valid (Page.handle e p).
Proof.
  intros [Hp Hh]. destruct e; simpl.
  - eapply within_keys_bind; [apply within_keys_theme_toggle|].
    intros t Ht. apply within_keys_ret. split; assumption.
  - eapply within_keys_bind; [apply within_keys_theme_toggle|].
    intros t Ht. apply within_keys_ret. split; assumption.
  - eapply within_keys_bind with (P := fun _ => True).
    + unfold Banner.dismiss. destruct (Page.dismissed p).
      * apply within_keys_ret. exact I.
      * eapply within_keys_bind; [apply within_keys_banner_effect|].
        intros _ _. apply within_keys_ret. exact I.
    + intros d _. apply within_keys_ret. split; assumption.
Qed.

Lemma within_keys_handle_all (es : list Page.Event) (p : Page.Page) :
  themes_valid p -> within_keys themes_valid (Page.handle_all es p).
Proof.
  revert p. induction es as [|e es IH]; intros p Hp; simpl.
  - apply within_keys_ret. exact Hp.
  - eapply within_keys_bind; [apply within_keys_handle, Hp|].
    intros p' Hp'. apply IH, Hp'.
Qed.

(** C7 (as amended). In every session of the page, in every world, the
    store is accessed under the two keys [edusphar-theme] and
    [edusphar-announce-dismissed] only; what is written under the first is
    "dark" or "light", what is written under the second is "0" or "1". *)
Theorem C7_store_keys (es : list Page.Event) (w : World) :
  exists p w' l, Page.session es w = (Ret p, w') /\ added w w' l /\
    Forall (access_within "edusphar-theme" "edusphar-announce-dismissed") l.
Proof.
  assert (H : within_keys themes_valid (Page.session es)).
  { unfold Page.session. eapply within_keys_bind; [apply within_keys_mount|].
    intros p Hp. apply within_keys_handle_all, Hp. }
  destruct (H w) as (p & w' & l & E & _ & Hl & Hf).
  exists p, w', l. auto.
Qed.

(** Both keys are in use: mounting the page on a first visit reads and
    writes each of them. *)
Example mount_on_first_visit :
  log (snd (Page.mount (first_visit false))) =
    [ Read "edusphar-theme"; MediaQuery "(prefers-color-scheme: dark)";
      Read "edusphar-announce-dismissed";
      Read "edusphar-theme"; MediaQuery "(prefers-color-scheme: dark)";
      Written "edusphar-announce-dismissed" "0";
      Written "edusphar-theme" "light"; Written "edusphar-theme" "light" ].
Proof. vm_compute. reflexivity. Qed.

(** C7 fails as stated: the keys are not [theme] and [announce-dismissed];
    mounting the page on a first visit already reads a key that is neither
    of the two. *)
Lemma C7_keys_carry_a_prefix :
  exists a, a ∈ log (snd (Page.session [] (first_visit false))) /\
    ~ access_within "theme" "announce-dismissed" a.
Proof.
  exists (Read "edusphar-theme"). split.
  - vm_compute. left.
  - simpl. intros [H | H]; discriminate H.
Qed.

(** ** C6: when the banner flag is written *)

(** C6, evaluated on the code. On a first visit nothing is stored under the
    banner's key; mounting the banner, with no click on Dismiss, already
    writes "0" under it, because the effect also runs after the first
    render. A later dismissal writes again. *)
Theorem C6_banner_flag_written_at_mount :
  store (first_visit false) !! Banner.storageKey = None /\
  (exists w', Banner.mount (first_visit false) = (Ret false, w') /\
     store w' !! Banner.storageKey = Some "0" /\
     log w' = [ Read Banner.storageKey; Written Banner.storageKey "0" ]) /\
  (exists w'', (bind Banner.mount Banner.dismiss) (first_visit false) = (Ret true, w'') /\
     store w'' !! Banner.storageKey = Some "1" /\
     log w'' = [ Read Banner.storageKey; Written Banner.storageKey "0";
                 Written Banner.storageKey "1" ]).
Proof.
  split; [reflexivity|].
  split; eexists; vm_compute; repeat split.
Qed.

(** Once dismissed, the flag survives a reload: the initialiser reads "1"
    and the effect writes "1" back. *)
Lemma banner_stays_dismissed (w : World) :
  window_defined w = true ->
  localStorage w = LsObj MWorks MWorks ->
  store w !! Banner.storageKey = Some "1" ->
  exists w', Banner.mount w = (Ret true, w') /\
    store w' !! Banner.storageKey = Some "1".
Proof.
  intros Hwin Hls Hst.
  destruct w as [win doc ls mm st rd lg]; simpl in *; subst.
  js_unfold; simpl. rewrite Hst. simpl.
  eexists; split; [reflexivity|]. simpl. apply lookup_insert_eq.
Qed.

(** ** Rounding to the nearest double *)

Section Rounding.
Import Num.
Local Open Scope Q_scope.

Lemma pow2_pos (k : Z) : 0 < pow2 k.
Proof. apply Qpower_0_lt. reflexivity. Qed.

Lemma pow2_plus (m n : Z) : pow2 (m + n) == pow2 m * pow2 n.
Proof. apply Qpower_plus. discriminate. Qed.

Lemma pow2_le (m n : Z) : (m <= n)%Z -> pow2 m <= pow2 n.
Proof. intros H. apply Qpower_le_compat_l; [exact H | discriminate]. Qed.

Lemma pow2_lt_inv (m n : Z) : pow2 m < pow2 n -> (m < n)%Z.
Proof. intros H. eapply Qpower_lt_compat_l_inv; [exact H | reflexivity]. Qed.

Lemma pow2_Z (n : Z) : (0 <= n)%Z -> pow2 n == inject_Z (2 ^ n).
Proof. intros H. symmetry. exact (Zpower_Qpower 2 n H). Qed.

Lemma pow2_frac (m n : Z) :
  (0 <= m)%Z -> (0 <= n)%Z -> pow2 (m - n) == (2 ^ m) # (Z.to_pos (2 ^ n)).
Proof.
  intros Hm Hn. unfold pow2. rewrite Qpower_minus by discriminate.
  fold (pow2 m). fold (pow2 n). rewrite !pow2_Z by assumption.
  assert (Hp : (0 < 2 ^ n)%Z) by (apply Z.pow_pos_nonneg; lia).
  destruct (2 ^ n)%Z as [|p|p] eqn:E; try lia.
  unfold Qeq, Qdiv, Qmult, Qinv, inject_Z. simpl. lia.
Qed.

(** [mag] is the binary exponent. *)
Lemma mag_spec (x : Q) : 0 < x -> pow2 (mag x - 1) <= x /\ x < pow2 (mag x).
Proof.
  intros Hx. destruct x as [a b]. unfold Qlt in Hx. simpl in Hx.
  assert (Ha : (0 < a)%Z) by lia.
  pose proof (Z.log2_spec a Ha) as [Ha1 Ha2].
  pose proof (Z.log2_spec (Zpos b) (Pos2Z.is_pos b)) as [Hb1 Hb2].
  pose proof (Z.log2_nonneg a) as Hla.
  pose proof (Z.log2_nonneg (Zpos b)) as Hlb.
  unfold mag. simpl Qnum. simpl Qden.
  set (la := Z.log2 a) in *. set (lb := Z.log2 (Zpos b)) in *.
  assert (Hpa : (0 < 2 ^ la)%Z) by (apply Z.pow_pos_nonneg; lia).
  assert (Hpb : (0 < 2 ^ lb)%Z) by (apply Z.pow_pos_nonneg; lia).
  rewrite Z.pow_succ_r in Ha2, Hb2 by assumption.
  destruct (Qle_bool (pow2 (la - lb)) (a # b)) eqn:E.
  - apply Qle_bool_iff in E. split.
    + replace (la - lb + 1 - 1)%Z with (la - lb)%Z by lia. exact E.
    + replace (la - lb + 1)%Z with ((la + 1) - lb)%Z by lia.
      rewrite pow2_frac by lia. unfold Qlt. simpl.
      rewrite Z2Pos.id by exact Hpb. rewrite Z.pow_add_r by lia. nia.
  - split.
    + replace (la - lb - 1)%Z with (la - (lb + 1))%Z by lia.
      rewrite pow2_frac by lia. unfold Qle. simpl.
      rewrite Z.pow_add_r by lia.
      rewrite Z2Pos.id by nia. nia.
    + apply Qnot_le_lt. intros H. apply Qle_bool_iff in H. congruence.
Qed.

Lemma mag_mono (x y : Q) : 0 < x -> x <= y -> (mag x <= mag y)%Z.
Proof.
  intros Hx Hxy.
  assert (Hy : 0 < y) by (eapply Qlt_le_trans; eauto).
  destruct (mag_spec x Hx) as [H1 _]. destruct (mag_spec y Hy) as [_ H2].
  assert (H : pow2 (mag x - 1) < pow2 (mag y)).
  { eapply Qle_lt_trans; [exact H1|]. eapply Qle_lt_trans; eauto. }
  apply pow2_lt_inv in H. lia.
Qed.

Lemma rne_range (q : Q) : (Qfloor q <= rne q <= Qfloor q + 1)%Z.
Proof.
  unfold rne. destruct (Qcompare _ _); [destruct (Z.even _)| |]; lia.
Qed.

(** Rounding to the nearest integer is monotone. *)
Lemma rne_mono (x y : Q) : x <= y -> (rne x <= rne y)%Z.
Proof.
  intros Hxy. pose proof (Qfloor_resp_le x y Hxy) as Hf.
  pose proof (rne_range x) as Rx. pose proof (rne_range y) as Ry.
  destruct (Z.eq_dec (Qfloor x) (Qfloor y)) as [E | E]; [|lia].
  unfold rne. rewrite <- E. clear Rx Ry Hf E.
  assert (Hfr : x - inject_Z (Qfloor x) <= y - inject_Z (Qfloor x)).
  { unfold Qminus. apply Qplus_le_compat; [exact Hxy | apply Qle_refl]. }
  set (a := x - inject_Z (Qfloor x)) in *.
  set (b := y - inject_Z (Qfloor x)) in *.
  destruct (Qcompare a (1 # 2)) eqn:Cx; destruct (Qcompare b (1 # 2)) eqn:Cy;
    try (destruct (Z.even (Qfloor x)); lia); try lia; exfalso;
    repeat match goal with
           | H : Qcompare _ _ = Eq |- _ => apply Qeq_alt in H
           | H : Qcompare _ _ = Lt |- _ => apply Qlt_alt in H
           | H : Qcompare _ _ = Gt |- _ => apply Qgt_alt in H
           end.
  - apply (Qlt_irrefl (1 # 2)). rewrite <- Cx at 1.
    eapply Qle_lt_trans; eauto.
  - apply (Qlt_irrefl (1 # 2)). rewrite <- Cy at 2.
    eapply Qlt_le_trans; eauto.
  - apply (Qlt_irrefl (1 # 2)).
    eapply Qlt_le_trans; [exact Cx|]. eapply Qle_trans; [exact Hfr|].
    apply Qlt_le_weak, Cy.
Qed.

Lemma rne_Z (z : Z) : rne (inject_Z z) = z.
Proof.
  unfold rne. rewrite Qfloor_Z.
  assert (E : Qcompare (inject_Z z - inject_Z z) (1 # 2) = Lt).
  { apply Qlt_alt. unfold Qminus. rewrite Qplus_opp_r. reflexivity. }
  rewrite E. reflexivity.
Qed.

Lemma rne_le_Z (q : Q) (z : Z) : q <= inject_Z z -> (rne q <= z)%Z.
Proof. intros H. rewrite <- (rne_Z z). apply rne_mono, H. Qed.

Lemma rne_ge_Z (q : Q) (z : Z) : inject_Z z <= q -> (z <= rne q)%Z.
Proof. intros H. rewrite <- (rne_Z z). apply rne_mono, H. Qed.

Lemma pow2_cancel (e : Z) : pow2 (53 - e) * pow2 (e - 53) == 1.
Proof.
  rewrite <- pow2_plus. replace (53 - e + (e - 53))%Z with 0%Z by lia.
  reflexivity.
Qed.

Lemma inject_Z_le (a b : Z) : (a <= b)%Z -> inject_Z a <= inject_Z b.
Proof. intros H. rewrite <- Zle_Qle. exact H. Qed.

(** The scaled value of a positive number lies below [2^53], and at or
    above [2^52] when the number is in the normal range. *)
Lemma scaled_upper (x : Q) (e : Z) :
  0 < x -> (mag x <= e)%Z -> x * pow2 (53 - e) <= inject_Z (2 ^ 53).
Proof.
  intros Hx He. destruct (mag_spec x Hx) as [_ H].
  rewrite <- (pow2_Z 53) by lia.
  replace 53%Z with (e + (53 - e))%Z at 2 by lia. rewrite pow2_plus.
  apply Qmult_le_compat_r; [|apply Qlt_le_weak, pow2_pos].
  apply Qlt_le_weak. eapply Qlt_le_trans; [exact H | apply pow2_le, He].
Qed.

Lemma scaled_lower (x : Q) :
  0 < x -> inject_Z (2 ^ 52) <= x * pow2 (53 - mag x).
Proof.
  intros Hx. destruct (mag_spec x Hx) as [H _].
  rewrite <- (pow2_Z 52) by lia.
  replace 52%Z with ((mag x - 1) + (53 - mag x))%Z at 1 by lia.
  rewrite pow2_plus.
  apply Qmult_le_compat_r; [exact H | apply Qlt_le_weak, pow2_pos].
Qed.

Lemma round_pos_upper (x : Q) :
  0 < x -> round_pos x <= pow2 (Z.max (mag x) emin).
Proof.
  intros Hx. unfold round_pos. set (e := Z.max (mag x) emin).
  assert (H : (rne (x * pow2 (53 - e)) <= 2 ^ 53)%Z).
  { apply rne_le_Z, scaled_upper; [exact Hx | lia]. }
  apply inject_Z_le in H.
  apply (Qmult_le_compat_r _ _ (pow2 (e - 53))) in H;
    [|apply Qlt_le_weak, pow2_pos].
  eapply Qle_trans; [exact H|].
  rewrite <- (pow2_Z 53), <- pow2_plus by lia.
  replace (53 + (e - 53))%Z with e by lia. apply Qle_refl.
Qed.

Lemma round_pos_lower (x : Q) :
  0 < x -> (emin <= mag x)%Z -> pow2 (mag x - 1) <= round_pos x.
Proof.
  intros Hx He. unfold round_pos. rewrite Z.max_l by exact He.
  assert (H : (2 ^ 52 <= rne (x * pow2 (53 - mag x)))%Z).
  { apply rne_ge_Z, scaled_lower, Hx. }
  apply inject_Z_le in H.
  apply (Qmult_le_compat_r _ _ (pow2 (mag x - 53))) in H;
    [|apply Qlt_le_weak, pow2_pos].
  eapply Qle_trans; [|exact H].
  rewrite <- (pow2_Z 52), <- pow2_plus by lia.
  replace (52 + (mag x - 53))%Z with (mag x - 1)%Z by lia. apply Qle_refl.
Qed.

Lemma round_pos_nonneg (x : Q) : 0 < x -> 0 <= round_pos x.
Proof.
  intros Hx. unfold round_pos.
  apply Qmult_le_0_compat; [|apply Qlt_le_weak, pow2_pos].
  change 0 with (inject_Z 0). apply inject_Z_le, rne_ge_Z.
  apply Qmult_le_0_compat; [apply Qlt_le_weak, Hx | apply Qlt_le_weak, pow2_pos].
Qed.

(** Rounding to a double is monotone: first within the positive numbers,
    then everywhere. *)
Lemma round_pos_mono (x y : Q) : 0 < x -> x <= y -> round_pos x <= round_pos y.
Proof.
  intros Hx Hxy.
  assert (Hy : 0 < y) by (eapply Qlt_le_trans; eauto).
  pose proof (mag_mono x y Hx Hxy) as Hm.
  destruct (Z.eq_dec (Z.max (mag x) emin) (Z.max (mag y) emin)) as [E | E].
  - unfold round_pos. rewrite E.
    apply Qmult_le_compat_r; [|apply Qlt_le_weak, pow2_pos].
    apply inject_Z_le, rne_mono.
    apply Qmult_le_compat_r; [exact Hxy | apply Qlt_le_weak, pow2_pos].
  - assert (Hy' : (emin <= mag y)%Z) by lia.
    eapply Qle_trans; [apply round_pos_upper, Hx|].
    eapply Qle_trans; [|apply round_pos_lower; assumption].
    apply pow2_le. lia.
Qed.

Lemma round_fin_mono (x y : Q) : x <= y -> round_fin x <= round_fin y.
Proof.
  intros Hxy. unfold round_fin.
  destruct (Qcompare 0 x) eqn:Cx; destruct (Qcompare 0 y) eqn:Cy;
    repeat match goal with
           | H : Qcompare _ _ = Eq |- _ => apply Qeq_alt in H
           | H : Qcompare _ _ = Lt |- _ => apply Qlt_alt in H
           | H : Qcompare _ _ = Gt |- _ => apply Qgt_alt in H
           end.
  - apply Qle_refl.
  - apply round_pos_nonneg, Cy.
  - exfalso. rewrite <- Cx in Hxy. exact (Qlt_not_le _ _ Cy Hxy).
  - exfalso. rewrite <- Cy in Hxy. exact (Qlt_not_le _ _ Cx Hxy).
  - apply round_pos_mono; assumption.
  - exfalso. apply (Qlt_irrefl 0). eapply Qlt_le_trans; [exact Cx|].
    eapply Qle_trans; [exact Hxy | apply Qlt_le_weak, Cy].
  - assert (H : 0 < - x) by (apply Qopp_lt_compat in Cx; exact Cx).
    apply round_pos_nonneg, Qopp_le_compat in H. exact H.
  - assert (H : 0 < - x) by (apply Qopp_lt_compat in Cx; exact Cx).
    apply round_pos_nonneg, Qopp_le_compat in H.
    eapply Qle_trans; [exact H|]. apply round_pos_nonneg, Cy.
  - apply Qopp_le_compat. apply round_pos_mono.
    + apply Qopp_lt_compat in Cy. exact Cy.
    + apply Qopp_le_compat, Hxy.
Qed.

(** 0 and 1 are doubles, and rounding keeps the sign. *)
Lemma round_fin_0 (x : Q) : x == 0 -> round_fin x = 0.
Proof.
  intros H. unfold round_fin.
  assert (E : Qcompare 0 x = Eq) by (apply Qeq_alt; symmetry; exact H).
  rewrite E. reflexivity.
Qed.

Lemma round_fin_nonneg (x : Q) : 0 <= x -> 0 <= round_fin x.
Proof.
  intros H. rewrite <- (round_fin_0 0) by reflexivity. apply round_fin_mono, H.
Qed.

Lemma round_fin_nonpos (x : Q) : x <= 0 -> round_fin x <= 0.
Proof.
  intros H. eapply Qle_trans; [apply round_fin_mono, H|].
  rewrite round_fin_0 by reflexivity. apply Qle_refl.
Qed.

Lemma round_fin_1 : round_fin 1 == 1.
Proof. vm_compute. reflexivity. Qed.

(** The rounding agrees with the hardware on values that any JavaScript
    console shows: 0.1, 0.1 + 0.2, 79 / 1400 and its product with 8400
    (473.99999999999994), the underflow to the smallest subnormal and to
    0, the overflow to [Infinity] and the largest double. *)
Example doubles_of_the_hardware :
  round_fin (1 # 10) == 3602879701896397 # 36028797018963968 /\
  round_fin (round_fin (1 # 10) + round_fin (2 # 10))
    == 1351079888211149 # 4503599627370496 /\
  round_fin (79 / 1400) == 4066107092140219 # 72057594037927936 /\
  round_fin (round_fin (79 / 1400) * 8400)
    == 8338696185053183 # 17592186044416 /\
  round_fin (3 * pow2 (-1076)) == pow2 (-1074) /\
  round_fin (pow2 (-1075)) == 0 /\
  round (pow2 1024 - pow2 970) = Inf false /\
  exists r, round (pow2 1024 - pow2 970 - 1) = Fin r /\
            r == pow2 1024 - pow2 971.
Proof.
  repeat split; try (vm_compute; reflexivity).
  eexists. split; vm_compute; reflexivity.
Qed.

End Rounding.

Section NumOrder.
Import Num.
Local Open Scope Q_scope.

Lemma Qltb_lt (x y : Q) : Qltb x y = true <-> x < y.
Proof.
  unfold Qltb. rewrite negb_true_iff. split.
  - intros H. apply Qnot_le_lt. intros Hle.
    apply Qle_bool_iff in Hle. congruence.
  - intros H. destruct (Qle_bool y x) eqn:E; [|reflexivity].
    apply Qle_bool_iff in E. exfalso. exact (Qlt_not_le _ _ H E).
Qed.

Lemma Qltb_ge (x y : Q) : Qltb x y = false <-> y <= x.
Proof.
  unfold Qltb. rewrite negb_false_iff. apply Qle_bool_iff.
Qed.

Lemma Qeq_bool_nonzero (d : Q) : ~ d == 0 -> Qeq_bool d 0 = false.
Proof.
  intros Hd. destruct (Qeq_bool d 0) eqn:E; [|reflexivity].
  apply Qeq_bool_iff in E. contradiction.
Qed.

(** Rounding depends on the number only, not on the fraction that
    denotes it. *)
Lemma mag_proper (x y : Q) : 0 < x -> x == y -> mag x = mag y.
Proof.
  intros Hx E. assert (Hy : 0 < y) by (rewrite <- E; exact Hx).
  apply Z.le_antisymm; apply mag_mono; auto; rewrite E; apply Qle_refl.
Qed.

Lemma rne_proper (x y : Q) : x == y -> rne x = rne y.
Proof.
  intros E. unfold rne.
  assert (Ef : Qfloor x = Qfloor y) by (rewrite E; reflexivity).
  rewrite Ef.
  assert (Ec : (x - inject_Z (Qfloor y) ?= 1 # 2) = (y - inject_Z (Qfloor y) ?= 1 # 2))
    by (rewrite E; reflexivity).
  rewrite Ec. reflexivity.
Qed.

Lemma round_pos_proper (x y : Q) : 0 < x -> x == y -> round_pos x = round_pos y.
Proof.
  intros Hx E. unfold round_pos. rewrite (mag_proper x y Hx E).
  rewrite (rne_proper (x * pow2 (53 - Z.max (mag y) emin))
             (y * pow2 (53 - Z.max (mag y) emin))) by (rewrite E; reflexivity).
  reflexivity.
Qed.

Lemma round_fin_proper (x y : Q) : x == y -> round_fin x = round_fin y.
Proof.
  intros E. unfold round_fin.
  assert (Ec : (0 ?= x) = (0 ?= y)) by (rewrite E; reflexivity).
  rewrite <- Ec. destruct (0 ?= x) eqn:C.
  - reflexivity.
  - apply Qlt_alt in C. apply round_pos_proper; assumption.
  - apply Qgt_alt in C. f_equal. apply round_pos_proper.
    + apply Qopp_lt_compat in C. exact C.
    + rewrite E. reflexivity.
Qed.

Lemma round_proper (x y : Q) : x == y -> round x = round y.
Proof. intros E. unfold round. rewrite (round_fin_proper x y E). reflexivity. Qed.

Lemma round_0 (x : Q) : x == 0 -> round x = Fin 0.
Proof. intros E. unfold round. rewrite (round_fin_0 x E). reflexivity. Qed.

(** The three outcomes of [round]. *)
Lemma round_cases (x : Q) :
  (round x = Fin (round_fin x) /\
   - pow2 1024 < round_fin x /\ round_fin x < pow2 1024) \/
  (round x = Inf false /\ pow2 1024 <= round_fin x) \/
  (round x = Inf true /\ round_fin x <= - pow2 1024).
Proof.
  unfold round. generalize (pow2_pos 1024). generalize (pow2 1024) as P.
  generalize (round_fin x) as r. intros r P HP.
  destruct (Qle_bool P (Qabs r)) eqn:E.
  - apply Qle_bool_iff in E. right.
    destruct (Qltb r 0) eqn:S.
    + right. split; [reflexivity|]. apply Qltb_lt in S.
      rewrite Qabs_neg in E by lra. lra.
    + left. split; [reflexivity|]. apply Qltb_ge in S.
      rewrite Qabs_pos in E by lra. lra.
  - left. split; [reflexivity|].
    assert (H : Qabs r < P).
    { apply Qnot_le_lt. intros H. apply Qle_bool_iff in H. congruence. }
    apply Qabs_Qlt_condition in H. exact H.
Qed.

(** Rounding is monotone, overflow included. *)
Lemma round_le (x y : Q) : x <= y -> num_le (round x) (round y).
Proof.
  intros Hxy. pose proof (round_fin_mono x y Hxy) as H.
  pose proof (pow2_pos 1024) as HP.
  pose proof (round_cases x) as Cx. pose proof (round_cases y) as Cy.
  set (P := pow2 1024) in *. clearbody P.
  destruct Cx as [(-> & Hx1 & Hx2) | [(-> & Hx) | (-> & Hx)]];
    destruct Cy as [(-> & Hy1 & Hy2) | [(-> & Hy) | (-> & Hy)]];
    simpl; try exact I; try lra.
Qed.

Lemma round_not_nan (x : Q) : round x <> NaN.
Proof. unfold round. destruct (Qle_bool _ _); discriminate. Qed.

Lemma round_double (q : Q) : is_double q -> exists r, round q = Fin r /\ r == q.
Proof.
  intros (E & Hb). exists (round_fin q). split; [|exact E].
  unfold round. 
  assert (H : Qle_bool (pow2 1024) (Qabs (round_fin q)) = false).
  { destruct (Qle_bool _ _) eqn:B; [|reflexivity].
    apply Qle_bool_iff in B. rewrite E in B. exfalso.
    exact (Qlt_not_le _ _ Hb B). }
  rewrite H. reflexivity.
Qed.

End NumOrder.

Section Integers.
Import Num.
Local Open Scope Q_scope.

Lemma round_pos_integer (z : Z) :
  (0 < z < 2 ^ 53)%Z -> round_pos (inject_Z z) == inject_Z z.
Proof.
  intros [H0 H1].
  assert (Hx : 0 < inject_Z z).
  { change 0 with (inject_Z 0). rewrite <- Zlt_Qlt. exact H0. }
  destruct (mag_spec _ Hx) as [Hlo Hhi].
  assert (Hm : (mag (inject_Z z) <= 53)%Z).
  { assert (H : pow2 (mag (inject_Z z) - 1) < pow2 53).
    { eapply Qle_lt_trans; [exact Hlo|].
      rewrite (pow2_Z 53) by lia. rewrite <- Zlt_Qlt. exact H1. }
    apply pow2_lt_inv in H. lia. }
  unfold round_pos.
  set (e := Z.max (mag (inject_Z z)) emin).
  assert (He : (0 <= 53 - e)%Z) by (unfold e, emin; lia).
  rewrite (rne_proper (inject_Z z * pow2 (53 - e))
             (inject_Z (z * 2 ^ (53 - e)))).
  - rewrite rne_Z, inject_Z_mult, <- (pow2_Z (53 - e)) by exact He.
    rewrite <- Qmult_assoc, pow2_cancel. ring.
  - rewrite inject_Z_mult, <- (pow2_Z (53 - e)) by exact He. reflexivity.
Qed.

(** Integers of absolute value below 2^53 are doubles. *)
Lemma safe_integer_is_double (z : Z) :
  (- 2 ^ 53 < z < 2 ^ 53)%Z -> is_double (inject_Z z).
Proof.
  intros [Hlo Hhi]. split.
  - unfold round_fin. destruct (0 ?= inject_Z z) eqn:C.
    + apply Qeq_alt in C. exact C.
    + apply Qlt_alt in C. apply round_pos_integer.
      change 0 with (inject_Z 0) in C. rewrite <- Zlt_Qlt in C. lia.
    + apply Qgt_alt in C.
      change 0 with (inject_Z 0) in C. rewrite <- Zlt_Qlt in C.
      change (- inject_Z z) with (inject_Z (- z)).
      rewrite round_pos_integer by lia.
      rewrite inject_Z_opp. ring.
  - change (Qabs (inject_Z z)) with (inject_Z (Z.abs z)).
    rewrite (pow2_Z 1024) by lia. rewrite <- Zlt_Qlt.
    assert (2 ^ 53 < 2 ^ 1024)%Z by (apply Z.pow_lt_mono_r; lia). lia.
Qed.

End Integers.

(** ** Arithmetic of the counter *)

Section CounterArithmetic.
Import Num RafCounter.
Local Open Scope Q_scope.

Lemma num_le_top (x : num) : x <> NaN -> num_le x (Inf false).
Proof. destruct x as [q| |[|]]; simpl; auto. Qed.

Lemma num_le_bot (x : num) : x <> NaN -> num_le (Inf true) x.
Proof. destruct x as [q| |[|]]; simpl; auto. Qed.

(** The operations of [step] are monotone in the time of the frame. *)
Lemma sub_mono (a a' b : Q) : a <= a' -> num_le (sub a b) (sub a' b).
Proof. intros H. apply round_le. lra. Qed.

Lemma sub_self (a : Q) : sub a a = Fin 0.
Proof. apply round_0. ring. Qed.

Lemma sub_later (t0 t : Q) : t0 <= t -> num_le (Fin 0) (sub t t0).
Proof. intros H. rewrite <- (sub_self t0). apply sub_mono, H. Qed.

Lemma div_zero (d : Q) : ~ d == 0 -> div (Fin 0) d = Fin 0.
Proof.
  intros H. unfold div. rewrite (Qeq_bool_nonzero d H).
  apply round_0. unfold Qdiv. apply Qmult_0_l.
Qed.

Lemma div_mono (x y : num) (d : Q) :
  0 < d -> num_le x y -> num_le (div x d) (div y d).
Proof.
  intros Hd H.
  assert (E : Qeq_bool d 0 = false) by (apply Qeq_bool_nonzero; lra).
  assert (S : Qltb d 0 = false) by (apply Qltb_ge; lra).
  destruct x as [a| |[|]], y as [b| |[|]]; simpl in *;
    try contradiction; rewrite ?E, ?S; simpl; try exact I.
  - apply round_le. unfold Qdiv. apply Qmult_le_compat_r; [exact H|].
    apply Qlt_le_weak, Qinv_lt_0_compat, Hd.
  - apply num_le_top, round_not_nan.
  - apply num_le_bot, round_not_nan.
Qed.

Lemma min1_mono (x y : num) : num_le x y -> num_le (min1 x) (min1 y).
Proof.
  intros H. destruct x as [a| |[|]], y as [b| |[|]]; simpl in *;
    try contradiction; try exact I.
  - apply Q.min_le_compat_r, H.
  - apply Q.le_min_r.
  - apply Qle_refl.
Qed.

Lemma progress_mono (dur t0 t t' : Q) :
  0 < dur -> t <= t' -> num_le (progress dur t0 t) (progress dur t0 t').
Proof.
  intros Hd H. unfold progress. apply min1_mono, div_mono, sub_mono; assumption.
Qed.

Lemma progress_start (dur t : Q) : ~ dur == 0 -> progress dur t t = Fin 0.
Proof.
  intros Hd. unfold progress. rewrite sub_self, (div_zero dur Hd). reflexivity.
Qed.

(** For a positive duration the progress is a finite number between 0
    and 1. *)
Lemma progress_unit (dur t0 t : Q) :
  0 < dur -> t0 <= t ->
  exists p, progress dur t0 t = Fin p /\ 0 <= p /\ p <= 1.
Proof.
  intros Hd Ht.
  assert (Hnz : ~ dur == 0) by lra.
  pose proof (progress_mono dur t0 t0 t Hd Ht) as H.
  rewrite (progress_start dur t0 Hnz) in H.
  unfold progress in *. destruct (div (sub t t0) dur) as [q| |[|]];
    simpl in *; try contradiction.
  - exists (Qmin q 1). split; [reflexivity|]. split; [exact H | apply Q.le_min_r].
  - exists 1. split; [reflexivity|]. lra.
Qed.

Lemma round_1 : exists r, round 1 = Fin r /\ r == 1.
Proof. eexists. split; vm_compute; reflexivity. Qed.

(** Once the duration has passed, the progress is not below 1. *)
Lemma progress_full (dur t0 t : Q) :
  0 < dur -> is_double dur -> dur <= t - t0 ->
  lt1 (progress dur t0 t) = false.
Proof.
  intros Hd Hdd Hfull.
  destruct (round_double dur Hdd) as (r & Er & Hr).
  destruct round_1 as (r1 & E1 & Hr1).
  assert (H : num_le (Fin r) (sub t t0)).
  { rewrite <- Er. apply round_le, Hfull. }
  apply (div_mono _ _ dur Hd), min1_mono in H.
  fold (progress dur t0 t) in H.
  assert (E : min1 (div (Fin r) dur) = Fin (Qmin r1 1)).
  { unfold div. rewrite Qeq_bool_nonzero by lra.
    rewrite (round_proper (r / dur) 1), E1; [reflexivity|].
    rewrite Hr. field. lra. }
  rewrite E in H.
  assert (Hm : Qmin r1 1 == 1) by (rewrite Hr1; apply Q.min_id).
  destruct (progress dur t0 t) as [p| |[|]]; simpl in *;
    try contradiction; [|reflexivity].
  apply Qltb_ge. lra.
Qed.

(** With a negative duration the progress stays below 1. *)
Lemma progress_backwards (dur t0 t : Q) :
  dur < 0 -> t0 <= t -> lt1 (progress dur t0 t) = true.
Proof.
  intros Hd Ht. pose proof (sub_later t0 t Ht) as H.
  assert (E : Qeq_bool dur 0 = false) by (apply Qeq_bool_nonzero; lra).
  assert (S : Qltb dur 0 = true) by (apply Qltb_lt; exact Hd).
  unfold progress. destruct (sub t t0) as [e| |[|]]; simpl in H;
    try contradiction; unfold div; rewrite ?E, ?S; simpl; [|reflexivity].
  assert (Hq : e / dur <= 0).
  { setoid_replace (e / dur) with (- (e * / (- dur)))
      using relation Qeq by (field; lra).
    assert (0 <= e * / (- dur)); [|lra].
    apply Qmult_le_0_compat; [exact H|].
    apply Qlt_le_weak, Qinv_lt_0_compat. lra. }
  pose proof (round_le _ _ Hq) as Hr. rewrite (round_0 0) in Hr by reflexivity.
  destruct (round (e / dur)) as [r| |[|]]; simpl in *; try contradiction.
  - apply Qltb_lt. pose proof (Q.le_min_l r 1). lra.
  - reflexivity.
Qed.

Lemma floor_mono (x y : num) (a b : Z) :
  num_le x y -> floor x = Int a -> floor y = Int b -> (a <= b)%Z.
Proof.
  destruct x as [p| |[|]], y as [q| |[|]]; simpl; intros H Ha Hb;
    try discriminate.
  inversion Ha; inversion Hb; subst. apply Qfloor_resp_le, H.
Qed.

Lemma mul_one (p : Q) (tgt : Z) :
  is_double (inject_Z tgt) -> p == 1 -> floor (mul (Fin p) tgt) = Int tgt.
Proof.
  intros Hd E. unfold mul.
  rewrite (round_proper (p * inject_Z tgt) (inject_Z tgt)) by (rewrite E; ring).
  destruct (round_double _ Hd) as (r & -> & Hr). simpl. f_equal.
  rewrite Hr. apply Qfloor_Z.
Qed.

Lemma mul_zero (p : Q) (tgt : Z) : p == 0 -> floor (mul (Fin p) tgt) = Int 0.
Proof.
  intros E. unfold mul. rewrite round_0 by (rewrite E; ring). reflexivity.
Qed.

Lemma mul_mono (p p' : Q) (tgt : Z) :
  (0 <= tgt)%Z -> p <= p' -> num_le (mul (Fin p) tgt) (mul (Fin p') tgt).
Proof.
  intros Ht H. apply round_le, Qmult_le_compat_r; [exact H|].
  change 0 with (inject_Z 0). rewrite <- Zle_Qle. exact Ht.
Qed.

Lemma mul_antimono (p p' : Q) (tgt : Z) :
  (tgt <= 0)%Z -> p <= p' -> num_le (mul (Fin p') tgt) (mul (Fin p) tgt).
Proof.
  intros Ht H. apply round_le.
  assert (Hq : inject_Z tgt <= 0).
  { change 0 with (inject_Z 0). rewrite <- Zle_Qle. exact Ht. }
  nra.
Qed.

(** A progress between 0 and 1 gives a value between 0 and the target. *)
Lemma mul_range (p : Q) (tgt : Z) :
  is_double (inject_Z tgt) -> 0 <= p -> p <= 1 ->
  exists z, floor (mul (Fin p) tgt) = Int z /\
            (Z.min 0 tgt <= z <= Z.max 0 tgt)%Z.
Proof.
  intros Hd H0 H1.
  pose proof (mul_zero 0 tgt (Qeq_refl 0)) as E0.
  pose proof (mul_one 1 tgt Hd (Qeq_refl 1)) as E1.
  assert (Hf : exists z, floor (mul (Fin p) tgt) = Int z).
  { unfold mul. destruct (Z_le_gt_dec 0 tgt) as [Ht | Ht].
    - pose proof (mul_mono 0 p tgt Ht H0) as Ha.
      pose proof (mul_mono p 1 tgt Ht H1) as Hb. unfold mul in *.
      destruct (round (p * inject_Z tgt)) as [x| |[|]]; simpl; eauto;
        destruct (round (0 * inject_Z tgt)) as [a| |[|]];
        destruct (round (1 * inject_Z tgt)) as [b| |[|]];
        simpl in *; try contradiction; discriminate.
    - assert (Ht' : (tgt <= 0)%Z) by lia.
      pose proof (mul_antimono 0 p tgt Ht' H0) as Ha.
      pose proof (mul_antimono p 1 tgt Ht' H1) as Hb. unfold mul in *.
      destruct (round (p * inject_Z tgt)) as [x| |[|]]; simpl; eauto;
        destruct (round (0 * inject_Z tgt)) as [a| |[|]];
        destruct (round (1 * inject_Z tgt)) as [b| |[|]];
        simpl in *; try contradiction; discriminate. }
  destruct Hf as (z & Ez). exists z. split; [exact Ez|].
  destruct (Z_le_gt_dec 0 tgt) as [Ht | Ht].
  - pose proof (floor_mono _ _ _ _ (mul_mono 0 p tgt Ht H0) E0 Ez).
    pose proof (floor_mono _ _ _ _ (mul_mono p 1 tgt Ht H1) Ez E1). lia.
  - assert (Ht' : (tgt <= 0)%Z) by lia.
    pose proof (floor_mono _ _ _ _ (mul_antimono 0 p tgt Ht' H0) Ez E0).
    pose proof (floor_mono _ _ _ _ (mul_antimono p 1 tgt Ht' H1) E1 Ez). lia.
Qed.

Lemma expected_start (tgt : Z) (dur t : Q) :
  ~ dur == 0 -> expected tgt dur t t = Int 0.
Proof.
  intros Hd. unfold expected. rewrite (progress_start dur t Hd).
  apply mul_zero. reflexivity.
Qed.

Lemma expected_range (tgt : Z) (dur t0 t : Q) :
  0 < dur -> t0 <= t -> is_double (inject_Z tgt) ->
  exists z, expected tgt dur t0 t = Int z /\
            (Z.min 0 tgt <= z <= Z.max 0 tgt)%Z.
Proof.
  intros Hd Ht Hdd. unfold expected.
  destruct (progress_unit dur t0 t Hd Ht) as (p & -> & H0 & H1).
  apply mul_range; assumption.
Qed.

Lemma expected_mono (tgt : Z) (dur t0 t t' : Q) (a b : Z) :
  0 < dur -> (0 <= tgt)%Z -> t0 <= t -> t <= t' ->
  expected tgt dur t0 t = Int a -> expected tgt dur t0 t' = Int b ->
  (a <= b)%Z.
Proof.
  intros Hd Htgt Ht Hle. unfold expected.
  pose proof (progress_mono dur t0 t t' Hd Hle) as Hm.
  destruct (progress_unit dur t0 t Hd Ht) as (p & Ep & _).
  destruct (progress_unit dur t0 t' Hd) as (p' & Ep' & _); [lra|].
  rewrite Ep, Ep' in *. apply floor_mono, mul_mono; assumption.
Qed.

Lemma expected_antimono (tgt : Z) (dur t0 t t' : Q) (a b : Z) :
  0 < dur -> (tgt <= 0)%Z -> t0 <= t -> t <= t' ->
  expected tgt dur t0 t = Int a -> expected tgt dur t0 t' = Int b ->
  (b <= a)%Z.
Proof.
  intros Hd Htgt Ht Hle Ha Hb. unfold expected in *.
  pose proof (progress_mono dur t0 t t' Hd Hle) as Hm.
  destruct (progress_unit dur t0 t Hd Ht) as (p & Ep & _).
  destruct (progress_unit dur t0 t' Hd) as (p' & Ep' & _); [lra|].
  rewrite Ep, Ep' in *.
  exact (floor_mono _ _ _ _ (mul_antimono p p' tgt Htgt Hm) Hb Ha).
Qed.

Lemma expected_full (tgt : Z) (dur t0 t : Q) :
  0 < dur -> t0 <= t -> is_double (inject_Z tgt) ->
  lt1 (progress dur t0 t) = false -> expected tgt dur t0 t = Int tgt.
Proof.
  intros Hd Ht Hdd Hl. unfold expected.
  destruct (progress_unit dur t0 t Hd Ht) as (p & Ep & H0 & H1).
  rewrite Ep in *. simpl in Hl. apply Qltb_ge in Hl.
  apply mul_one; [exact Hdd | lra].
Qed.

(** Once the progress has reached 1 it stays there, and so does the
    value. *)
Lemma stopped_stable (tgt : Z) (dur t0 t t' : Q) :
  ~ dur == 0 -> t0 <= t -> t <= t' ->
  lt1 (progress dur t0 t) = false ->
  lt1 (progress dur t0 t') = false /\
  expected tgt dur t0 t' = expected tgt dur t0 t.
Proof.
  intros Hnz Ht Hle Hl.
  destruct (Qlt_le_dec dur 0) as [Hneg | Hpos].
  - rewrite (progress_backwards dur t0 t Hneg Ht) in Hl. discriminate.
  - assert (Hd : 0 < dur) by lra.
    pose proof (progress_mono dur t0 t t' Hd Hle) as Hm. unfold expected.
    destruct (progress_unit dur t0 t Hd Ht) as (p & Ep & _ & H1).
    destruct (progress_unit dur t0 t' Hd) as (p' & Ep' & _ & H1'); [lra|].
    rewrite Ep, Ep' in *. simpl in *. apply Qltb_ge in Hl. split.
    + apply Qltb_ge. lra.
    + unfold mul. f_equal. apply round_proper.
      assert (E : p' == p) by lra. rewrite E. reflexivity.
Qed.

End CounterArithmetic.

(** ** C2, C3: the animated counter *)

Section CounterLemmas.
Import Num RafCounter.
Local Open Scope Q_scope.

Local Arguments sub : simpl never.
Local Arguments div : simpl never.
Local Arguments min1 : simpl never.
Local Arguments mul : simpl never.
Local Arguments floor : simpl never.
Local Arguments lt1 : simpl never.

Lemma frame_props (ts : Q) (c : Counter) :
  one_pending c ->
  target (frame ts c) = target c /\ duration (frame ts c) = duration c /\
  targetRef (frame ts c) = targetRef c.
Proof.
  intros [H | (id & Hid & H & _)]; unfold frame; simpl; rewrite H; simpl.
  - auto.
  - unfold step. simpl.
    destruct (lt1 _); simpl; auto.
Qed.

Lemma frame_idle (ts : Q) (c : Counter) :
  Raf.pending (raf c) = [] -> frame ts c = c.
Proof.
  intros H. destruct c as [tg du v tr st ri [n p]]. simpl in H. subst p.
  reflexivity.
Qed.

Lemma frame_first (t0 : Q) (c : Counter) :
  fresh c -> animating t0 t0 (frame t0 c).
Proof.
  intros (Hs & Hr & id & Hid & Hp & Hlt0).
  unfold frame. simpl. rewrite Hp. simpl.
  unfold step. simpl. rewrite Hs. simpl.
  change (min1 (div (sub t0 t0) (duration c)))
    with (progress (duration c) t0 t0).
  destruct (lt1 (progress (duration c) t0 t0)) eqn:Hlt;
    unfold animating, expected; simpl; rewrite Hr, Hlt; repeat split; auto.
  left. split; [reflexivity|].
  eexists. repeat split. apply Pos.lt_succ_diag_r.
Qed.

Lemma frame_next (t0 t t' : Q) (c : Counter) :
  ~ duration c == 0 -> ~ t0 == 0 -> t0 <= t -> t <= t' ->
  animating t0 t c -> animating t0 t' (frame t' c).
Proof.
  intros Hd Ht0 Ht Hle (Hs & Hr & Hv & [(_ & id & Hid & Hp & _) | (Hfull & Hp)]).
  - unfold frame. simpl. rewrite Hp. simpl.
    unfold step. simpl. rewrite Hs. simpl.
    rewrite (Qeq_bool_nonzero t0 Ht0).
    change (min1 (div (sub t' t0) (duration c)))
      with (progress (duration c) t0 t').
    destruct (lt1 (progress (duration c) t0 t')) eqn:Hlt;
      unfold animating, expected; simpl; rewrite Hr, Hlt; repeat split; auto.
    left. split; [reflexivity|].
    eexists. repeat split. apply Pos.lt_succ_diag_r.
  - rewrite (frame_idle t' c Hp).
    destruct (stopped_stable (target c) (duration c) t0 t t' Hd Ht Hle Hfull)
      as (Hl & He).
    unfold animating. rewrite He. repeat split; auto.
Qed.

Lemma animating_one_pending (t0 t : Q) (c : Counter) :
  animating t0 t c -> one_pending c.
Proof.
  intros (_ & _ & _ & [(_ & H) | (_ & H)]); [right | left]; exact H.
Qed.

Lemma fresh_one_pending (c : Counter) : fresh c -> one_pending c.
Proof. intros (_ & _ & H). right. exact H. Qed.

Lemma mount_fresh (tgt : Z) (dur : Q) : fresh (mount true tgt dur).
Proof.
  unfold fresh. simpl. repeat split. exists 1%positive. repeat split.
Qed.

Lemma cleanup_empties_queue (c : Counter) :
  one_pending c -> Raf.pending (raf (cleanup c)) = [].
Proof.
  intros [H | (id & Hid & H & _)]; unfold cleanup; simpl.
  - destruct (rafId c); simpl; rewrite H; reflexivity.
  - rewrite Hid. simpl. rewrite H.
    rewrite filter_cons, decide_False by (intros E; apply E; reflexivity).
    reflexivity.
Qed.

Lemma set_target_fresh (tgt : Z) (c : Counter) :
  one_pending c -> tgt <> target c ->
  fresh (set_target tgt c) /\ target (set_target tgt c) = tgt /\
  duration (set_target tgt c) = duration c /\
  val (set_target tgt c) = val c /\
  Raf.pending (raf (set_target tgt c)) = [Raf.next_id (raf c)].
Proof.
  intros Hc Hne. pose proof (cleanup_empties_queue c Hc) as Hq.
  unfold set_target. rewrite bool_decide_eq_false_2 by exact Hne.
  unfold run_effect, request_step, fresh. simpl in *. rewrite Hq. simpl.
  assert (Hn : Raf.next_id (Raf.cancel_if (rafId c) (raf c)) = Raf.next_id (raf c)).
  { destruct (rafId c); reflexivity. }
  rewrite Hn. repeat split.
  eexists. repeat split. apply Pos.lt_succ_diag_r.
Qed.

Lemma reachable_one_pending (c : Counter) : reachable c -> one_pending c.
Proof.
  induction 1 as [tgt dur | c e Hc IH].
  - apply fresh_one_pending, mount_fresh.
  - destruct e as [ts | tgt]; simpl.
    + destruct IH as [H | (id & Hid & H & Hlt)].
      * rewrite (frame_idle ts c H). left. exact H.
      * unfold frame. simpl. rewrite H. simpl. unfold step. simpl.
        destruct (lt1 _); simpl; [right | left; reflexivity].
        eexists. repeat split. apply Pos.lt_succ_diag_r.
    + destruct (decide (tgt = target c)) as [E | E].
      * unfold set_target. rewrite bool_decide_eq_true_2 by exact E. exact IH.
      * apply fresh_one_pending. apply set_target_fresh; assumption.
Qed.

End CounterLemmas.

Section CounterTheorems.
Import Num RafCounter.
Local Open Scope Q_scope.

Lemma nondecreasing_lookup (tss : list Q) (t : Q) (k : nat) (t' : Q) :
  nondecreasing_from t tss -> tss !! k = Some t' -> t <= t'.
Proof.
  revert t k. induction tss as [|a rest IH]; intros t k Hs Hk.
  - discriminate.
  - destruct Hs as [Hta Hrest]. destruct k as [|k]; simpl in Hk.
    + inversion Hk; subst. exact Hta.
    + eapply Qle_trans; [exact Hta | eapply IH; eauto].
Qed.

Lemma nondecreasing_pair (tss : list Q) (t : Q) (i j : nat) (a b : Q) :
  nondecreasing_from t tss -> (i <= j)%nat ->
  tss !! i = Some a -> tss !! j = Some b -> a <= b.
Proof.
  revert t i j. induction tss as [|x rest IH]; intros t i j Hs Hij Hi Hj.
  - discriminate.
  - destruct Hs as [Htx Hrest]. destruct i as [|i], j as [|j]; simpl in *.
    + inversion Hi; inversion Hj; subst. apply Qle_refl.
    + inversion Hi; subst. eapply nondecreasing_lookup; eauto.
    + lia.
    + eapply (IH x i j); eauto. lia.
Qed.

(** From an animating state on, every frame shows the expected value. *)
Lemma displayed_animating (t0 : Q) (tss : list Q) :
  forall (t : Q) (c : Counter),
    ~ duration c == 0 -> ~ t0 == 0 -> t0 <= t -> animating t0 t c ->
    nondecreasing_from t tss ->
    displayed tss c = expected (target c) (duration c) t0 <$> tss.
Proof.
  induction tss as [|a rest IH]; intros t c Hd Ht0 Ht Hc Hs; [reflexivity|].
  destruct Hs as [Hta Hrest].
  pose proof (frame_next t0 t a c Hd Ht0 Ht Hta Hc) as Hc'.
  destruct (frame_props a c (animating_one_pending _ _ _ Hc)) as (Et & Ed & _).
  simpl. f_equal.
  - destruct Hc' as (_ & _ & Hv & _). rewrite Hv, Et, Ed. reflexivity.
  - rewrite (IH a (frame a c)); auto.
    + rewrite Et, Ed. reflexivity.
    + rewrite Ed. exact Hd.
    + eapply Qle_trans; eauto.
Qed.

(** The state after the frames up to and including the one at index [k]. *)
Lemma frames_animating (t0 : Q) (tss : list Q) :
  forall (t : Q) (c : Counter) (k : nat) (t' : Q),
    ~ duration c == 0 -> ~ t0 == 0 -> t0 <= t -> animating t0 t c ->
    nondecreasing_from t tss -> tss !! k = Some t' ->
    animating t0 t' (frames (take (S k) tss) c) /\
    target (frames (take (S k) tss) c) = target c /\
    duration (frames (take (S k) tss) c) = duration c.
Proof.
  induction tss as [|a rest IH]; intros t c k t' Hd Ht0 Ht Hc Hs Hk;
    [discriminate|].
  destruct Hs as [Hta Hrest].
  pose proof (frame_next t0 t a c Hd Ht0 Ht Hta Hc) as Hc'.
  destruct (frame_props a c (animating_one_pending _ _ _ Hc)) as (Et & Ed & _).
  destruct k as [|k]; simpl in Hk.
  - inversion Hk; subst. simpl. auto.
  - change (frames (take (S (S k)) (a :: rest)) c)
      with (frames (take (S k) rest) (frame a c)).
    destruct (IH a (frame a c) k t') as (H1 & H2 & H3); auto.
    + rewrite Ed. exact Hd.
    + eapply Qle_trans; eauto.
    + rewrite H2, H3. auto.
Qed.

Lemma positive_nonzero (t0 : Q) : 0 < t0 -> ~ t0 == 0.
Proof. intros H E. rewrite E in H. exact (Qlt_irrefl _ H). Qed.

(** A fresh animation followed through its frames. *)
Lemma displayed_fresh (c : Counter) (t0 : Q) (ts : list Q) :
  ~ duration c == 0 -> 0 < t0 -> fresh c -> nondecreasing_from t0 ts ->
  displayed (t0 :: ts) c = expected (target c) (duration c) t0 <$> (t0 :: ts).
Proof.
  intros Hd Ht0 Hc Hs.
  pose proof (frame_first t0 c Hc) as Hc'.
  destruct (frame_props t0 c (fresh_one_pending c Hc)) as (Et & Ed & _).
  change (displayed (t0 :: ts) c)
    with (val (frame t0 c) :: displayed ts (frame t0 c)).
  rewrite (displayed_animating t0 ts t0 (frame t0 c)); auto.
  - destruct Hc' as (_ & _ & Hv & _). rewrite Hv, Et, Ed. reflexivity.
  - rewrite Ed. exact Hd.
  - apply positive_nonzero, Ht0.
  - apply Qle_refl.
Qed.

Lemma frames_fresh (c : Counter) (t0 : Q) (ts : list Q) (k : nat) (t : Q) :
  ~ duration c == 0 -> 0 < t0 -> fresh c -> nondecreasing_from t0 ts ->
  (t0 :: ts) !! k = Some t ->
  animating t0 t (frames (take (S k) (t0 :: ts)) c) /\
  target (frames (take (S k) (t0 :: ts)) c) = target c /\
  duration (frames (take (S k) (t0 :: ts)) c) = duration c.
Proof.
  intros Hd Ht0 Hc Hs Hk.
  pose proof (frame_first t0 c Hc) as Hc'.
  destruct (frame_props t0 c (fresh_one_pending c Hc)) as (Et & Ed & _).
  destruct k as [|k]; simpl in Hk.
  - inversion Hk; subst. simpl. auto.
  - change (frames (take (S (S k)) (t0 :: ts)) c)
      with (frames (take (S k) ts) (frame t0 c)).
    destruct (frames_animating t0 ts t0 (frame t0 c) k t) as (H1 & H2 & H3); auto.
    + rewrite Ed. exact Hd.
    + apply positive_nonzero, Ht0.
    + apply Qle_refl.
    + rewrite H2, H3. auto.
Qed.

End CounterTheorems.

Section CounterClaims.
Import Num RafCounter.
Local Open Scope Q_scope.

(** C2 (as amended). JavaScript numbers are doubles: the hook computes
    [floor(min((t - t0) / duration, 1) * target)] with the difference, the
    quotient and the product each rounded to the nearest double, and
    [expected] is that computation. For an integer target, a positive
    duration (both doubles, as every JavaScript number is) and frames
    whose timestamps are positive and never go back, a mounted counter
    behaves as follows. (1) After the frame at time [t] it shows
    [expected target duration t0 t], where [t0] is the time of the first
    frame. (2) It shows 0 before the first frame and at the first frame.
    (3) As soon as a frame comes at which the rounded ratio is not below
    1, which is the case at the latest when [duration <= t - t0], the
    counter shows exactly the target, no frame request is pending, and
    further frames change nothing. (4) Until then one frame request is
    pending after every frame. (5) For a target that is not negative the
    values shown never decrease and stay between 0 and the target. *)
Theorem C2_counter_sequence (tgt : Z) (dur t0 : Q) (ts : list Q) :
  0 < dur -> is_double dur -> is_double (inject_Z tgt) ->
  0 < t0 -> nondecreasing_from t0 ts ->
  let c0 := mount true tgt dur in
  let shown := displayed (t0 :: ts) c0 in
  shown = expected tgt dur t0 <$> (t0 :: ts) /\
  val c0 = Int 0 /\ shown !! 0%nat = Some (Int 0) /\
  (forall (k : nat) (t : Q),
      (t0 :: ts) !! k = Some t ->
      lt1 (progress dur t0 t) = false \/ dur <= t - t0 ->
      let c := frames (take (S k) (t0 :: ts)) c0 in
      val c = Int tgt /\ Raf.pending (raf c) = [] /\
      forall t', frame t' c = c) /\
  (forall (k : nat) (t : Q),
      (t0 :: ts) !! k = Some t -> lt1 (progress dur t0 t) = true ->
      exists id,
        Raf.pending (raf (frames (take (S k) (t0 :: ts)) c0)) = [id]) /\
  ((0 <= tgt)%Z ->
   forall (i j : nat) (a b : Z),
     (i <= j)%nat -> shown !! i = Some (Int a) -> shown !! j = Some (Int b) ->
     (0 <= a /\ a <= b /\ b <= tgt)%Z).
Proof.
  intros Hd Hdd Htd Ht0 Hs c0 shown.
  assert (Hnz : ~ dur == 0) by lra.
  assert (Hshown : shown = expected tgt dur t0 <$> (t0 :: ts)).
  { apply (displayed_fresh c0 t0 ts Hnz Ht0 (mount_fresh tgt dur) Hs). }
  assert (Hnd : nondecreasing_from t0 (t0 :: ts)).
  { split; [apply Qle_refl | exact Hs]. }
  assert (Hval : forall i a, shown !! i = Some (Int a) ->
            exists t, (t0 :: ts) !! i = Some t /\ expected tgt dur t0 t = Int a).
  { intros i a Hi. rewrite Hshown, list_lookup_fmap in Hi.
    destruct ((t0 :: ts) !! i) as [t|] eqn:E; [|discriminate].
    simpl in Hi. inversion Hi. eauto. }
  assert (Hstate : forall k t, (t0 :: ts) !! k = Some t ->
            animating t0 t (frames (take (S k) (t0 :: ts)) c0) /\
            target (frames (take (S k) (t0 :: ts)) c0) = tgt /\
            duration (frames (take (S k) (t0 :: ts)) c0) = dur).
  { intros k t Hk.
    exact (frames_fresh c0 t0 ts k t Hnz Ht0 (mount_fresh tgt dur) Hs Hk). }
  split; [exact Hshown|]. split; [reflexivity|].
  split; [|split; [|split]].
  - rewrite Hshown. simpl. f_equal. apply expected_start, Hnz.
  - intros k t Hk Hfull c.
    pose proof (nondecreasing_lookup _ _ _ _ Hnd Hk) as Hle.
    assert (Hl : lt1 (progress dur t0 t) = false).
    { destruct Hfull as [H | H]; [exact H|]. apply progress_full; assumption. }
    destruct (Hstate k t Hk) as ((_ & _ & Hv & Hq) & Et & Ed).
    fold c in Hv, Hq, Et, Ed. rewrite Et, Ed in Hv. rewrite Ed in Hq.
    destruct Hq as [(Hnot & _) | (_ & Hp)]; [congruence|].
    split; [|split].
    + rewrite Hv. apply expected_full; assumption.
    + exact Hp.
    + intros t'. apply frame_idle, Hp.
  - intros k t Hk Hl.
    destruct (Hstate k t Hk) as ((_ & _ & _ & Hq) & _ & Ed).
    rewrite Ed in Hq.
    destruct Hq as [(_ & id & _ & Hp & _) | (Hnot & _)]; [|congruence].
    exists id. exact Hp.
  - intros Htgt i j a b Hij Hi Hj.
    destruct (Hval i a Hi) as (ti & Eti & Ea).
    destruct (Hval j b Hj) as (tj & Etj & Eb).
    pose proof (nondecreasing_pair _ _ _ _ _ _ Hnd Hij Eti Etj) as Hle.
    pose proof (nondecreasing_lookup _ _ _ _ Hnd Eti) as Hi0.
    pose proof (nondecreasing_lookup _ _ _ _ Hnd Etj) as Hj0.
    destruct (expected_range tgt dur t0 ti Hd Hi0 Htd) as (a' & Ea' & Hra).
    destruct (expected_range tgt dur t0 tj Hd Hj0 Htd) as (b' & Eb' & Hrb).
    assert (a' = a) by congruence. assert (b' = b) by congruence. subst a' b'.
    pose proof (expected_mono tgt dur t0 ti tj a b Hd Htgt Hi0 Hle Ea Eb).
    lia.
Qed.

Lemma C2_counter_sequence_witness :
  let c := frames [100; 600; 1100] (mount true 1000 1000) in
  val c = Int 1000 /\ Raf.pending (raf c) = [] /\ forall t', frame t' c = c.
Proof.
  assert (H1 : 0 < 1000) by reflexivity.
  assert (H2 : is_double 1000) by (split; vm_compute; reflexivity).
  assert (H3 : is_double (inject_Z 1000)) by (split; vm_compute; reflexivity).
  assert (H4 : 0 < 100) by reflexivity.
  assert (H5 : nondecreasing_from 100 [600; 1100; 1200]).
  { simpl. repeat split; discriminate. }
  destruct (C2_counter_sequence 1000 1000 100 [600; 1100; 1200] H1 H2 H3 H4 H5)
    as (_ & _ & _ & H & _).
  apply (H 2%nat 1100).
  - reflexivity.
  - right. discriminate.
Defined.

(** The walk-through of the specification: target 1000 over 1000 ms. *)
Example counter_1000 :
  displayed [100; 600; 1100; 1200] (mount true 1000 1000)
  = [Int 0; Int 500; Int 1000; Int 1000].
Proof. vm_compute. reflexivity. Qed.

(** C2 fails as stated. The courses counter of the page, target 8400
    over 1400 ms, shows 473 at 79 ms where the formula of the claim gives
    474: 79 / 1400 is rounded down to a double and the product with 8400
    falls just below 474. With target -10 the values shown go down from 0
    to -10. With duration 0 the first frame shows NaN and the animation
    stops there, never showing the target. *)
Lemma C2_off_formula_decreasing_or_nan :
  displayed [100; 179] (mount true 8400 1400) = [Int 0; Int 473] /\
  real_formula 8400 1400 100 179 = 474%Z /\
  displayed [100; 600; 1100] (mount true (-10) 1000)
    = [Int 0; Int (-5); Int (-10)] /\
  (-5 < 0)%Z /\
  displayed [100; 600; 1100] (mount true 5 0)
    = [NotANumber; NotANumber; NotANumber] /\
  Raf.pending (raf (frame 100 (mount true 5 0))) = [].
Proof. vm_compute. repeat split. Qed.

(** C3 (as amended). When a render of a reachable counter brings a new
    target, the frame request that was pending is cancelled: exactly one
    request is pending afterwards, a new one. Timing restarts ([start] is
    [null] again) and the new target is the one used. The value on
    display is not touched by the change: it stays until the next frame.
    When the duration is not 0, that frame, the first of the new
    animation, shows 0, and all frames of the new animation show the
    values of an animation of the new target counted from that first
    frame, whatever was shown before the change. *)
Theorem C3_target_change_restarts (c : Counter) (tgt : Z) :
  reachable c -> tgt <> target c ->
  let c' := set_target tgt c in
  (exists id, rafId c' = Some id /\ Raf.pending (raf c') = [id] /\
              id ∉ Raf.pending (raf c)) /\
  start c' = None /\ targetRef c' = tgt /\
  val c' = val c /\
  (~ duration c == 0 ->
   (forall t0, val (frame t0 c') = Int 0) /\
   (forall t0 ts, 0 < t0 -> nondecreasing_from t0 ts ->
      displayed (t0 :: ts) c' = expected tgt (duration c) t0 <$> (t0 :: ts))).
Proof.
  intros Hr Hne c'.
  pose proof (reachable_one_pending c Hr) as Hone.
  destruct (set_target_fresh tgt c Hone Hne) as (Hf & Et & Ed & Hv & Hp).
  fold c' in Hf, Et, Ed, Hv, Hp.
  split; [|split; [|split; [|split]]].
  - destruct Hf as (_ & _ & id & Hid & Hq & _).
    exists id. repeat split; auto.
    rewrite Hq in Hp. inversion Hp; subst id.
    destruct Hone as [H | (id0 & _ & H & Hlt)]; rewrite H.
    + apply not_elem_of_nil.
    + intros Hin. apply list_elem_of_singleton in Hin. lia.
  - apply Hf.
  - destruct Hf as (_ & Htr & _). rewrite Htr. exact Et.
  - exact Hv.
  - intros Hd.
    assert (Hd' : ~ duration c' == 0) by (rewrite Ed; exact Hd).
    split.
    + intros t0. destruct (frame_first t0 c' Hf) as (_ & _ & Hv0 & _).
      rewrite Hv0. apply expected_start.
      destruct (frame_props t0 c' (fresh_one_pending c' Hf)) as (_ & Ed0 & _).
      rewrite Ed0. exact Hd'.
    + intros t0 ts Ht0 Hs.
      rewrite (displayed_fresh c' t0 ts Hd' Ht0 Hf Hs), Et, Ed. reflexivity.
Qed.

Lemma C3_target_change_restarts_witness :
  val (set_target 400 (handle (handle (mount true 1000 1000) (Frame 100))
                              (Frame 600)))
  = val (handle (handle (mount true 1000 1000) (Frame 100)) (Frame 600)).
Proof.
  assert (Hne : 400%Z <> target (handle (handle (mount true 1000 1000)
                                               (Frame 100)) (Frame 600)))
    by (vm_compute; discriminate).
  exact (proj1 (proj2 (proj2 (proj2
    (C3_target_change_restarts _ 400
       (reach_handle _ (Frame 600)
          (reach_handle _ (Frame 100) (reach_mount 1000 1000))) Hne))))).
Defined.

(** C3 fails as stated. 500 is on display when the target becomes 400:
    the change does not reset the value, 500 stays on display until the
    first frame of the new animation. And with duration 0 that frame
    shows NaN, not 0. *)
Lemma C3_value_not_reset_at_change :
  val (frames [100; 600] (mount true 1000 1000)) = Int 500 /\
  val (set_target 400 (frames [100; 600] (mount true 1000 1000))) = Int 500 /\
  val (frame 700 (set_target 400 (frames [100; 600] (mount true 1000 0))))
    = NotANumber.
Proof. vm_compute. repeat split. Qed.

(** Mid-flight change: 500 is on display when the target becomes 400. The
    effect does not touch the state, so 500 stays on display until the
    first frame of the new loop, which shows 0; the counter does not go on
    from 500. *)
Example counter_retargeted :
  val (frames [100; 600] (mount true 1000 1000)) = Int 500 /\
  val (set_target 400 (frames [100; 600] (mount true 1000 1000))) = Int 500 /\
  displayed [700; 900; 1700]
    (set_target 400 (frames [100; 600] (mount true 1000 1000)))
  = [Int 0; Int 80; Int 400].
Proof. vm_compute. repeat split. Qed.

(** A change to the target of the courses counter: the values are those of
    double arithmetic. *)
Example counter_retargeted_8400 :
  displayed [700; 779; 2100]
    (set_target 8400 (frames [100; 600] (mount true 1000 1400)))
  = [Int 0; Int 473; Int 8400].
Proof. vm_compute. reflexivity. Qed.

(** [if (!start) start = ts] takes a first timestamp of 0 for "not started
    yet": the clock then starts at the next frame. *)
Example counter_first_frame_at_zero :
  displayed [0; 16; 516] (mount true 1000 1000) = [Int 0; Int 0; Int 500].
Proof. vm_compute. reflexivity. Qed.

(** Without a window the counter shows the target at once. *)
Example counter_without_window :
  val (mount false 8400 1400) = Int 8400 /\
  Raf.pending (raf (mount false 8400 1400)) = [].
Proof. split; reflexivity. Qed.

End CounterClaims.

(** ** C5: the scroll-driven header *)

Section HeaderProperties.
Import Num ScrollHeader.
Local Open Scope Q_scope.

Lemma mount_ok (thr : Q) (y0 : option Q) : header_ok thr (mount thr y0).
Proof. repeat split. left. reflexivity. Qed.

Lemma cancel_last (h : Header) (thr : Q) :
  header_ok thr h -> Raf.pending (Raf.cancel_if (rafId h) (raf h)) = [].
Proof.
  intros (_ & _ & [H | (id & Hid & H)]).
  - destruct (rafId h); simpl; rewrite H; reflexivity.
  - rewrite Hid. simpl. rewrite H.
    rewrite filter_cons, decide_False by (intros E; apply E; reflexivity).
    reflexivity.
Qed.

(** After a scroll event exactly one callback is pending, and it will see
    the position of that event. *)
Lemma scroll_ok (thr : Q) (y : option Q) (h : Header) :
  header_ok thr h ->
  header_ok thr (scroll y h) /\
  lastY (scroll y h) = or_zero y /\
  shrunk (scroll y h) = shrunk h /\
  recomputed (scroll y h) = recomputed h /\
  exists id, Raf.pending (raf (scroll y h)) = [id].
Proof.
  intros Hok. pose proof (cancel_last h thr Hok) as Hq.
  destruct Hok as (Ht & Hl & _).
  unfold scroll. rewrite Hl. unfold onScroll, Raf.request, header_ok.
  simpl. rewrite Hq. simpl. repeat split; eauto.
Qed.

Lemma frame_ok (thr : Q) (h : Header) :
  header_ok thr h ->
  header_ok thr (frame h) /\ (recomputed (frame h) <= S (recomputed h))%nat.
Proof.
  intros (Ht & Hl & [H | (id & Hid & H)]);
    unfold frame, header_ok; simpl; rewrite H; simpl; repeat split; auto.
Qed.

Lemma run_ok (thr : Q) (es : list Event) (h : Header) :
  header_ok thr h -> header_ok thr (run es h).
Proof.
  revert h. induction es as [|e es IH]; intros h Hok; [exact Hok|].
  simpl. apply IH. destruct e as [y|]; simpl.
  - apply scroll_ok, Hok.
  - apply frame_ok, Hok.
Qed.

(** A burst of scroll events recomputes nothing by itself. *)
Lemma burst_ok (thr : Q) (ys : list (option Q)) (h : Header) :
  header_ok thr h ->
  header_ok thr (run (Scroll <$> ys) h) /\
  recomputed (run (Scroll <$> ys) h) = recomputed h.
Proof.
  revert h. induction ys as [|y ys IH]; intros h Hok; [auto|].
  change (run (Scroll <$> (y :: ys)) h)
    with (run (Scroll <$> ys) (scroll y h)).
  destruct (scroll_ok thr y h Hok) as (Hok' & _ & _ & Hr & _).
  destruct (IH _ Hok') as (H1 & H2). split; [exact H1|].
  rewrite H2. exact Hr.
Qed.

(** Frames alone, before any scroll event, find nothing to run. *)
Lemma frames_before_scroll (thr : Q) (y0 : option Q) (n : nat) :
  run (repeat Frame n) (mount thr y0) = mount thr y0.
Proof.
  induction n as [|n IH]; [reflexivity|].
  simpl. unfold run in *. simpl. exact IH.
Qed.

(** C5 (as amended). (1) At mount [shrunk] is false whatever the scroll
    position, and it stays false through any number of frames until the
    first scroll event: the position read at mount is stored but never
    compared. In every state a mounted header can reach: (2) after a
    scroll event at position [y] the next frame sets [shrunk] to true
    exactly when [y] is strictly above the threshold, so a position at
    or below the threshold gives false; (3) a burst of scroll events of
    any length calls [setShrunk] not at all, and the frame that follows
    it calls it at most once; (4) after a burst ending at [y] that frame
    calls it exactly once, with the last position. *)
Theorem C5_scroll_header (thr : Q) (y0 : option Q) (es : list Event) :
  (forall n : nat,
      shrunk (run (repeat Frame n) (mount thr y0)) = false /\
      recomputed (run (repeat Frame n) (mount thr y0)) = 0%nat) /\
  let h := run es (mount thr y0) in
  (forall y : Q,
      (shrunk (frame (scroll (Some y) h)) = true <-> thr < y) /\
      (shrunk (frame (scroll (Some y) h)) = false <-> y <= thr)) /\
  (forall ys : list (option Q),
      let h' := run (Scroll <$> ys) h in
      recomputed h' = recomputed h /\
      (recomputed (frame h') <= S (recomputed h))%nat) /\
  (forall (ys : list (option Q)) (y : Q),
      let h' := run (Scroll <$> (ys ++ [Some y])%list) h in
      recomputed (frame h') = S (recomputed h) /\
      shrunk (frame h') = Qltb thr y).
Proof.
  split.
  { intros n. rewrite frames_before_scroll. split; reflexivity. }
  intros h.
  assert (Hok : header_ok thr h) by apply run_ok, mount_ok.
  assert (Hlast : forall h0 y, header_ok thr h0 ->
            recomputed (frame (scroll (Some y) h0)) = S (recomputed h0) /\
            shrunk (frame (scroll (Some y) h0)) = Qltb thr y).
  { intros h0 y Hok0.
    destruct (scroll_ok thr (Some y) h0 Hok0)
      as ((Ht & _) & Hy & _ & Hr & id & Hp).
    unfold frame. simpl. rewrite Hp. simpl. rewrite Hy, Ht, Hr. auto. }
  split; [|split].
  - intros y. destruct (Hlast h y Hok) as (_ & ->).
    split; [apply Qltb_lt | apply Qltb_ge].
  - intros ys h'. destruct (burst_ok thr ys h Hok) as (Hok' & Hr).
    fold h' in Hok', Hr. split; [exact Hr|].
    rewrite <- Hr. apply (frame_ok thr), Hok'.
  - intros ys y h'. unfold h'. rewrite fmap_app. unfold run at 1 2.
    rewrite fold_left_app. simpl.
    destruct (burst_ok thr ys h Hok) as (Hok' & Hr).
    unfold run in Hok', Hr. rewrite <- Hr. apply Hlast, Hok'.
Qed.

(** C5 fails as stated: not every scroll position above the threshold
    yields [shrunk = true]. A page mounted at position 500, far above
    the threshold 48 of the header (a reload restores the scroll
    position), shows the header unshrunk, frame after frame, until a
    scroll event comes. *)
Lemma C5_above_threshold_before_scroll :
  48 < 500 /\
  shrunk (mount 48 (Some 500)) = false /\
  shrunk (run [Frame; Frame; Frame] (mount 48 (Some 500))) = false /\
  shrunk (run [Scroll (Some 500); Frame] (mount 48 (Some 500))) = true.
Proof. vm_compute. repeat split. Qed.

(** The header of the page uses the threshold 48. *)
Example header_at_48 :
  shrunk (run [Scroll (Some 48); Frame] (mount 48 None)) = false /\
  shrunk (run [Scroll (Some 49); Frame] (mount 48 None)) = true /\
  recomputed (run [Scroll (Some 10); Scroll (Some 60); Scroll (Some 90); Frame]
                  (mount 48 None)) = 1%nat.
Proof. vm_compute. repeat split. Qed.

End HeaderProperties.

(** ** C4, C9: the mobile sheet *)

Section SheetLemmas.
Import NavSheet.
Context {Elem : Type} `{EqDecision Elem}.

Lemma indexOf_notin (arr : list Elem) (e : Elem) :
  e ∉ arr -> indexOf arr (Some e) = (-1)%Z.
Proof.
  induction arr as [|y rest IH]; intros Hn; [reflexivity|].
  apply not_elem_of_cons in Hn as [Hne Hn]. simpl.
  rewrite bool_decide_eq_false_2 by congruence.
  rewrite (IH Hn). reflexivity.
Qed.

Lemma indexOf_elem (arr : list Elem) (e : Elem) :
  e ∈ arr ->
  (0 <= indexOf arr (Some e) < Z.of_nat (length arr))%Z /\
  arr !! Z.to_nat (indexOf arr (Some e)) = Some e.
Proof.
  induction arr as [|y rest IH]; intros Hin; [inversion Hin|].
  simpl indexOf. destruct (decide (e = y)) as [-> | Hne].
  - rewrite bool_decide_eq_true_2 by reflexivity. simpl. split; [lia | reflexivity].
  - rewrite bool_decide_eq_false_2 by congruence.
    apply elem_of_cons in Hin as [Hin | Hin]; [contradiction|].
    destruct (IH Hin) as (Hr & Hl).
    destruct (indexOf rest (Some e) <? 0)%Z eqn:E; [apply Z.ltb_lt in E; lia|].
    split; [simpl length; lia|].
    replace (Z.to_nat (indexOf rest (Some e) + 1))
      with (S (Z.to_nat (indexOf rest (Some e)))) by lia.
    exact Hl.
Qed.

Lemma indexOf_app_r (l1 l2 : list Elem) (e : Elem) :
  e ∉ l1 -> e ∈ l2 ->
  indexOf (l1 ++ l2) (Some e) = (Z.of_nat (length l1) + indexOf l2 (Some e))%Z.
Proof.
  intros Hn Hin. induction l1 as [|y rest IH]; [simpl; lia|].
  apply not_elem_of_cons in Hn as [Hne Hn]. simpl indexOf.
  rewrite bool_decide_eq_false_2 by congruence.
  rewrite (IH Hn).
  destruct (indexOf_elem l2 e Hin) as (Hr & _).
  destruct (_ <? 0)%Z eqn:E; [apply Z.ltb_lt in E; lia|].
  simpl length. lia.
Qed.

Lemma indexOf_app_l (l1 l2 : list Elem) (e : Elem) :
  e ∈ l1 -> indexOf (l1 ++ l2) (Some e) = indexOf l1 (Some e).
Proof.
  intros Hin. induction l1 as [|y rest IH]; [inversion Hin|].
  simpl. destruct (decide (e = y)) as [-> | Hne].
  - rewrite !bool_decide_eq_true_2 by reflexivity. reflexivity.
  - rewrite !bool_decide_eq_false_2 by congruence.
    apply elem_of_cons in Hin as [Hin | Hin]; [contradiction|].
    rewrite (IH Hin). reflexivity.
Qed.

(** In a list without repetitions [indexOf] inverts the lookup. *)
Lemma indexOf_lookup (arr : list Elem) (i : nat) (e : Elem) :
  NoDup arr -> arr !! i = Some e -> indexOf arr (Some e) = Z.of_nat i.
Proof.
  intros Hnd Hi. destruct (indexOf_elem arr e) as (Hr & Hl).
  - eapply list_elem_of_lookup_2, Hi.
  - assert (E : Z.to_nat (indexOf arr (Some e)) = i).
    { eapply NoDup_lookup; eauto. }
    lia.
Qed.

Lemma at_index_nat (arr : list Elem) (i : nat) :
  at_index arr (Z.of_nat i) = arr !! i.
Proof.
  unfold at_index. destruct (_ <? 0)%Z eqn:E; [apply Z.ltb_lt in E; lia|].
  rewrite Nat2Z.id. reflexivity.
Qed.

End SheetLemmas.

Section SheetTrap.
Import NavSheet.
Context {Elem : Type} `{EqDecision Elem}.
Variables before sheet after : list Elem.
Hypothesis distinct : NoDup (before ++ sheet ++ after).

Local Abbreviation keydown := (keydown before sheet after).
Local Abbreviation handle := (handle before sheet after).
Local Abbreviation run := (run before sheet after).
Local Abbreviation trapped := (trapped sheet).
Local Abbreviation setMobileOpen := (setMobileOpen sheet).

Lemma sheet_distinct : NoDup sheet.
Proof.
  apply NoDup_app in distinct as (_ & _ & H2).
  apply NoDup_app in H2 as (H2 & _). exact H2.
Qed.

Lemma order_index (k : nat) (e : Elem) :
  sheet !! k = Some e ->
  indexOf (before ++ sheet ++ after) (Some e)
  = (Z.of_nat (length before) + Z.of_nat k)%Z.
Proof.
  intros Hk.
  assert (Hin : e ∈ sheet) by (eapply list_elem_of_lookup_2, Hk).
  assert (Hnb : e ∉ before).
  { apply NoDup_app in distinct as (_ & Hd & _). intros Hb.
    apply (Hd e Hb). apply elem_of_app. left. exact Hin. }
  rewrite indexOf_app_r; [|exact Hnb | apply elem_of_app; left; exact Hin].
  rewrite (indexOf_app_l _ _ _ Hin).
  rewrite (indexOf_lookup sheet k e sheet_distinct Hk). reflexivity.
Qed.

Lemma order_lookup (k : nat) :
  (k < length sheet)%nat ->
  ((before ++ sheet ++ after)%list) !! (length before + k)%nat = sheet !! k.
Proof.
  intros Hk. rewrite lookup_app_r by lia.
  replace (length before + k - length before)%nat with k by lia.
  apply lookup_app_l. exact Hk.
Qed.

(** One press of Tab or Shift+Tab in an open sheet whose [k]-th element
    has focus: focus moves to the neighbour inside the sheet, wrapping at
    both ends; nothing else changes. *)
Lemma tab_in_sheet (shiftKey : bool) (n : Nav) (k : nat) (e : Elem) :
  mobileOpen n = true -> listening n = true ->
  activeElement n = Some e -> sheet !! k = Some e ->
  keydown (Tab shiftKey) n
  = mkNav true
      (sheet !! (if shiftKey
                 then (if decide (k = 0%nat) then length sheet - 1 else k - 1)
                 else (if decide (k = length sheet - 1) then 0 else k + 1))%nat)
      (prev n) true.
Proof.
  intros Hopen Hlis Hact Hk.
  pose proof (lookup_lt_Some _ _ _ Hk) as Hlt.
  pose proof (indexOf_lookup sheet k e sheet_distinct Hk) as Hidx.
  unfold keydown, NavSheet.keydown. rewrite Hlis. unfold trap, focusable.
  rewrite Hact, Hidx.
  assert (Hpos : (0 <? Z.of_nat (length sheet))%Z = true)
    by (apply Z.ltb_lt; lia).
  rewrite Hpos.
  destruct shiftKey; simpl.
  - destruct (decide (k = 0%nat)) as [-> | Hk0].
    + simpl.
      replace (Z.of_nat (length sheet) - 1)%Z
        with (Z.of_nat (length sheet - 1)) by lia.
      rewrite at_index_nat.
      destruct (sheet !! (length sheet - 1)%nat) as [x|] eqn:Ex.
      * simpl. rewrite Hopen, Hlis. reflexivity.
      * apply lookup_ge_None in Ex. lia.
    + assert (E : (Z.of_nat k =? 0)%Z = false) by (apply Z.eqb_neq; lia).
      rewrite E. unfold tab_default, tab_order. rewrite Hopen, Hact.
      rewrite (order_index k e Hk).
      destruct (_ <? 0)%Z eqn:E2; [apply Z.ltb_lt in E2; lia|].
      replace (Z.of_nat (length before) + Z.of_nat k - 1)%Z
        with (Z.of_nat (length before + (k - 1))) by lia.
      rewrite at_index_nat, order_lookup by lia.
      rewrite Hlis. reflexivity.
  - destruct (decide (k = (length sheet - 1)%nat)) as [Hkl | Hkl].
    + assert (E : (Z.of_nat k =? Z.of_nat (length sheet) - 1)%Z = true)
        by (apply Z.eqb_eq; lia).
      rewrite E. change 0%Z with (Z.of_nat 0). rewrite at_index_nat.
      destruct (sheet !! 0%nat) as [x|] eqn:Ex.
      * simpl. rewrite Hopen, Hlis. reflexivity.
      * apply lookup_ge_None in Ex. lia.
    + assert (E : (Z.of_nat k =? Z.of_nat (length sheet) - 1)%Z = false)
        by (apply Z.eqb_neq; lia).
      rewrite E. unfold tab_default, tab_order. rewrite Hopen, Hact.
      rewrite (order_index k e Hk).
      destruct (_ <? 0)%Z eqn:E2; [apply Z.ltb_lt in E2; lia|].
      replace (Z.of_nat (length before) + Z.of_nat k + 1)%Z
        with (Z.of_nat (length before + (k + 1))) by lia.
      rewrite at_index_nat, order_lookup by lia.
      rewrite Hlis. reflexivity.
Qed.

Lemma focus_fields (x : option Elem) (n : Nav) :
  mobileOpen (focus x n) = mobileOpen n /\ prev (focus x n) = prev n /\
  listening (focus x n) = listening n.
Proof. destruct x; simpl; auto. Qed.

(** Tab never opens or closes the sheet, nor touches what was captured. *)
Lemma tab_fields (shiftKey : bool) (n : Nav) :
  mobileOpen (keydown (Tab shiftKey) n) = mobileOpen n /\
  prev (keydown (Tab shiftKey) n) = prev n /\
  listening (keydown (Tab shiftKey) n) = listening n.
Proof.
  unfold keydown, NavSheet.keydown, trap.
  destruct (listening n) eqn:El; [|simpl; auto].
  destruct (0 <? _)%Z; [|simpl; auto].
  destruct (shiftKey && _);
    [simpl; rewrite <- El; apply focus_fields|].
  destruct (negb shiftKey && _);
    [simpl; rewrite <- El; apply focus_fields|].
  simpl. auto.
Qed.

Lemma close_fields (n : Nav) :
  mobileOpen n = true ->
  mobileOpen (setMobileOpen false n) = false /\
  listening (setMobileOpen false n) = false /\
  activeElement (setMobileOpen false n)
  = match prev n with Some p => Some p | None => activeElement n end.
Proof.
  intros Hopen. unfold setMobileOpen. rewrite Hopen. simpl.
  unfold cleanup. simpl. destruct (prev n); simpl; auto.
Qed.

Lemma open_fields (n : Nav) :
  mobileOpen n = false ->
  setMobileOpen true n
  = mkNav true
      (match head sheet with Some f => Some f | None => activeElement n end)
      (activeElement n) true.
Proof.
  intros Hclosed. unfold setMobileOpen. rewrite Hclosed. simpl.
  unfold run_effect, focusable. destruct (head sheet); reflexivity.
Qed.

Lemma tab_trapped (shiftKey : bool) (n : Nav) :
  trapped n -> trapped (keydown (Tab shiftKey) n).
Proof.
  intros Hn Hopen'.
  destruct (tab_fields shiftKey n) as (Eo & _ & El).
  rewrite Eo in Hopen'. destruct (Hn Hopen') as (Hlis & e & Hact & Hin).
  apply list_elem_of_lookup_1 in Hin as [k Hk].
  pose proof (lookup_lt_Some _ _ _ Hk) as Hlt.
  rewrite (tab_in_sheet shiftKey n k e Hopen' Hlis Hact Hk). simpl.
  split; [reflexivity|].
  match goal with |- context [sheet !! ?i] =>
    destruct (lookup_lt_is_Some_2 sheet i) as [x Hx] end.
  - destruct shiftKey; repeat case_decide; lia.
  - exists x. split; [exact Hx | eapply list_elem_of_lookup_2, Hx].
Qed.

Lemma handle_trapped (e : Event) (n : Nav) :
  sheet <> [] -> e <> PressPanel -> trapped n -> trapped (handle n e).
Proof.
  intros Hne He Hn.
  assert (Hclose : trapped (setMobileOpen false n)).
  { destruct (mobileOpen n) eqn:Eo.
    - destruct (close_fields n Eo) as (Hc & _). intros Ho. congruence.
    - unfold setMobileOpen. rewrite Eo. exact Hn. }
  destruct e as [ | | | [ | shiftKey | ] | ]; simpl; try exact Hclose.
  - destruct (mobileOpen n) eqn:Eo.
    + unfold setMobileOpen. rewrite Eo. exact Hn.
    + rewrite (open_fields n Eo). intros _. simpl. split; [reflexivity|].
      destruct sheet as [|f rest]; [contradiction|]. simpl.
      exists f. split; [reflexivity | left].
  - destruct (listening n); [exact Hclose | exact Hn].
  - apply tab_trapped, Hn.
  - exact Hn.
  - congruence.
Qed.

(** What the handler achieves. Let the elements of the document be
    distinct and the sheet have a focusable element. As long as the
    open and close buttons, the backdrop and the keys are all that
    happens, an open sheet keeps focus on one of its focusable
    elements. *)
Lemma run_trapped (es : list Event) (n : Nav) :
  sheet <> [] -> PressPanel ∉ es -> trapped n -> trapped (run es n).
Proof.
  intros Hne. revert n. induction es as [|e es IH]; intros n Hes Hn; [exact Hn|].
  apply not_elem_of_cons in Hes as [He Hes].
  simpl. apply IH; [exact Hes|]. apply handle_trapped; auto.
Qed.

(** At the two ends of the sheet the handler wraps. *)
Lemma tab_wraps (n : Nav) (e : Elem) :
  mobileOpen n = true -> listening n = true -> activeElement n = Some e ->
  (last sheet = Some e -> activeElement (keydown (Tab false) n) = head sheet) /\
  (head sheet = Some e -> activeElement (keydown (Tab true) n) = last sheet).
Proof.
  intros Hopen Hlis Hact. split.
  - intros Hlast. rewrite last_lookup in Hlast.
    rewrite (tab_in_sheet false _ _ e Hopen Hlis Hact Hlast). simpl.
    rewrite decide_True by lia. symmetry. apply head_lookup.
  - intros Hfirst. rewrite head_lookup in Hfirst.
    rewrite (tab_in_sheet true _ _ e Hopen Hlis Hact Hfirst). simpl.
    rewrite last_lookup. f_equal. lia.
Qed.

End SheetTrap.

Section SheetFocus.
Import NavSheet.
Context {Elem : Type} `{EqDecision Elem}.
Variables before sheet after : list Elem.

Local Abbreviation keydown := (keydown before sheet after).
Local Abbreviation handle := (handle before sheet after).
Local Abbreviation run := (run before sheet after).

(** Keys other than Escape leave the sheet as open as it was, with the
    same captured element and the same listener. *)
Lemma keys_fields (keys : list Key) (n : Nav) :
  Escape ∉ keys ->
  mobileOpen (run (KeyDown <$> keys) n) = mobileOpen n /\
  prev (run (KeyDown <$> keys) n) = prev n /\
  listening (run (KeyDown <$> keys) n) = listening n.
Proof.
  revert n. induction keys as [|k keys IH]; intros n Hk; [auto|].
  apply not_elem_of_cons in Hk as [Hne Hk].
  change (run (KeyDown <$> (k :: keys)) n)
    with (run (KeyDown <$> keys) (keydown k n)).
  destruct (IH (keydown k n) Hk) as (H1 & H2 & H3).
  rewrite H1, H2, H3.
  destruct k as [ | shiftKey | ]; [congruence | | auto].
  apply tab_fields.
Qed.

(** C9. From any state with the sheet closed and focus on [p]: opening
    the sheet captures [p] and moves focus to the first focusable element
    of the sheet; after any keys other than Escape the sheet is still
    open, and Escape closes it; and whichever way it is closed (the close
    button, the backdrop or Escape), focus is back on [p]. *)
Theorem C9_open_escape_restore
        (n : Nav) (p f : Elem) (keys : list Key) (closing : Event) :
  mobileOpen n = false -> activeElement n = Some p ->
  head sheet = Some f -> Escape ∉ keys -> closes closing = true ->
  let n1 := handle n OpenMenu in
  let n2 := run (KeyDown <$> keys) n1 in
  let n3 := handle n2 closing in
  (mobileOpen n1 = true /\ prev n1 = Some p /\ activeElement n1 = Some f) /\
  (mobileOpen n2 = true /\ mobileOpen (handle n2 (KeyDown Escape)) = false) /\
  (mobileOpen n3 = false /\ activeElement n3 = Some p).
Proof.
  intros Hclosed Hact Hhead Hkeys Hclosing n1 n2 n3.
  assert (E1 : n1 = mkNav true (Some f) (Some p) true).
  { unfold n1. simpl. rewrite (open_fields sheet n Hclosed), Hhead, Hact.
    reflexivity. }
  destruct (keys_fields keys n1 Hkeys) as (Ho & Hp & Hl).
  fold n2 in Ho, Hp, Hl. rewrite E1 in Ho, Hp, Hl. simpl in Ho, Hp, Hl.
  destruct (close_fields sheet n2 Ho) as (Hc1 & _ & Hc2).
  rewrite Hp in Hc2.
  assert (Hesc : handle n2 (KeyDown Escape) = setMobileOpen sheet false n2).
  { simpl. rewrite Hl. reflexivity. }
  split; [rewrite E1; auto|]. split.
  - split; [exact Ho|]. rewrite Hesc. exact Hc1.
  - unfold n3.
    destruct closing as [ | | | [ | shiftKey | ] | ];
      try discriminate Hclosing; try rewrite Hesc; simpl; auto.
Qed.

End SheetFocus.

(** C4, evaluated on the code. The menu of the page is opened from its
    "Open menu" button and the user presses on the panel, off its links
    and buttons. The sheet is still open and [onKey] attached, but no
    element of the sheet has focus. At the next Tab or Shift+Tab
    [indexOf] gives -1, which is neither end of the sheet: the handler
    calls no [preventDefault] and moves no focus, the browser's default
    action runs, and focus lands on an element of the page behind the
    overlay, the sheet still open. *)
Theorem C4_focus_escapes_after_press :
  let go := NavSheet.run header_before NavSheet.sheet_of_header header_after in
  let key := NavSheet.keydown header_before NavSheet.sheet_of_header
               header_after in
  let n := go [NavSheet.OpenMenu; NavSheet.PressPanel]
              (NavSheet.closed (Some "Open menu")) in
  (NavSheet.mobileOpen n = true /\ NavSheet.listening n = true /\
   NavSheet.activeElement n = None) /\
  (forall shiftKey,
      NavSheet.indexOf NavSheet.sheet_of_header (NavSheet.activeElement n)
        = (-1)%Z /\
      NavSheet.trap NavSheet.sheet_of_header shiftKey n = (n, false)) /\
  (NavSheet.mobileOpen (key (NavSheet.Tab false) n) = true /\
   NavSheet.activeElement (key (NavSheet.Tab false) n)
     = Some "Skip to content" /\
   "Skip to content" ∈ header_before /\
   "Skip to content" ∉ NavSheet.sheet_of_header) /\
  (NavSheet.mobileOpen (key (NavSheet.Tab true) n) = true /\
   NavSheet.activeElement (key (NavSheet.Tab true) n) = Some "Watch demo" /\
   "Watch demo" ∈ header_after /\
   "Watch demo" ∉ NavSheet.sheet_of_header).
Proof.
  assert (Hin : forall (x : string) (l : list string),
            bool_decide (x ∈ l) = true -> x ∈ l).
  { intros x l H. apply bool_decide_eq_true in H. exact H. }
  assert (Hout : forall (x : string) (l : list string),
            bool_decide (x ∈ l) = false -> x ∉ l).
  { intros x l H. apply bool_decide_eq_false in H. exact H. }
  intros go key n.
  split; [repeat split|]. split; [|split].
  - intros [|]; split; reflexivity.
  - split; [reflexivity|]. split; [reflexivity|].
    split; [apply Hin | apply Hout]; vm_compute; reflexivity.
  - split; [reflexivity|]. split; [reflexivity|].
    split; [apply Hin | apply Hout]; vm_compute; reflexivity.
Qed.

Lemma C9_open_escape_restore_witness :
  let n1 := NavSheet.handle header_before NavSheet.sheet_of_header header_after
              (NavSheet.closed (Some "Open menu")) NavSheet.OpenMenu in
  let n2 := NavSheet.run header_before NavSheet.sheet_of_header header_after
              (NavSheet.KeyDown <$> [NavSheet.Tab false; NavSheet.Tab false]) n1 in
  let n3 := NavSheet.handle header_before NavSheet.sheet_of_header header_after
              n2 (NavSheet.KeyDown NavSheet.Escape) in
  NavSheet.mobileOpen n3 = false /\ NavSheet.activeElement n3 = Some "Open menu".
Proof.
  intros n1 n2 n3.
  refine (proj2 (proj2 (C9_open_escape_restore header_before
                   NavSheet.sheet_of_header header_after
                   (NavSheet.closed (Some "Open menu")) "Open menu" "Close menu"
                   [NavSheet.Tab false; NavSheet.Tab false]
                   (NavSheet.KeyDown NavSheet.Escape) _ _ _ _ _))).
  - reflexivity.
  - reflexivity.
  - reflexivity.
  - intros Hin. apply elem_of_cons in Hin as [Hin | Hin]; [discriminate|].
    apply elem_of_cons in Hin as [Hin | Hin]; [discriminate|].
    inversion Hin.
  - reflexivity.
Defined.

(** The handler wraps at the two ends of the sheet only. With the sheet
    open and no element focused, Tab is left to the browser and lands on
    the page. *)
Example tab_with_focus_outside_sheet :
  NavSheet.activeElement
    (NavSheet.keydown header_before NavSheet.sheet_of_header header_after
       (NavSheet.Tab false) (NavSheet.mkNav true None None true))
  = Some "Skip to content".
Proof. vm_compute. reflexivity. Qed.

(** The walk through the sheet of the page: Tab from the last element
    wraps to the first, Shift+Tab from the first to the last. *)
Example header_sheet_walk :
  let go := NavSheet.run header_before NavSheet.sheet_of_header header_after in
  let opened := go [NavSheet.OpenMenu] (NavSheet.closed (Some "Open menu")) in
  NavSheet.activeElement opened = Some "Close menu" /\
  NavSheet.activeElement (go [NavSheet.KeyDown (NavSheet.Tab true)] opened)
    = Some "Sign up free" /\
  NavSheet.activeElement
    (go [NavSheet.KeyDown (NavSheet.Tab true);
         NavSheet.KeyDown (NavSheet.Tab false)] opened)
    = Some "Close menu" /\
  NavSheet.activeElement
    (go [NavSheet.KeyDown (NavSheet.Tab false)] opened) = Some "#courses".
Proof. vm_compute. repeat split. Qed.

(* ===================================================================== *)
(** * Part IV: further properties of the code                             *)
(* ===================================================================== *)

(** ** The store under the page's operations *)

Lemma store_framed_refl (w : World) : store_framed w w.
Proof. unfold store_framed. repeat split; auto. Qed.

Lemma writable_framed (w w' : World) :
  store_framed w w' -> writable w' -> writable w.
Proof.
  intros (Hw & _ & Hl & _) (H1 & g & H2). split; [congruence|].
  exists g. congruence.
Qed.

Lemma store_framed_trans (w1 w2 w3 : World) :
  store_framed w1 w2 -> store_framed w2 w3 -> store_framed w1 w3.
Proof.
  intros H12 H23.
  pose proof (writable_framed _ _ H12) as Hwr.
  destruct H12 as (A1 & A2 & A3 & A4 & A5 & A6 & A7).
  destruct H23 as (B1 & B2 & B3 & B4 & B5 & B6 & B7).
  unfold store_framed. repeat split; try congruence.
  - intros k H1 H2. rewrite B5, A5; auto.
  - intros k Hk. auto.
  - intros Hn. rewrite B7, A7; auto.
Qed.

Lemma framed_ret {A} (a : A) : framed (ret a).
Proof. intros w. apply store_framed_refl. Qed.

Lemma framed_bind {A B} (c : M A) (k : A -> M B) :
  framed c -> (forall a, framed (k a)) -> framed (bind c k).
Proof.
  intros Hc Hk w. specialize (Hc w). unfold bind.
  destruct (c w) as [[a|] w1]; simpl in *; [|exact Hc].
  eapply store_framed_trans; [exact Hc | apply Hk].
Qed.

Ltac solve_framed :=
  unfold store_framed, writable; simpl;
  repeat match goal with |- _ /\ _ => split end;
  try reflexivity;
  first
    [ intros k Hk1 Hk2; rewrite lookup_insert_ne by congruence; reflexivity
    | intros k Hk;
      match goal with
      | |- is_Some (<[?k0:=_]> _ !! _) =>
          destruct (decide (k0 = k)) as [<- | Hne];
          [rewrite lookup_insert_eq; eauto | rewrite lookup_insert_ne by exact Hne; exact Hk]
      | _ => exact Hk
      end
    | intros Hn; first [reflexivity | exfalso; apply Hn; split; eauto] ].

Lemma framed_theme_getInitial : framed Theme.getInitial.
Proof.
  intros w. world_cases w; js_unfold; simpl;
    try destruct (Theme.is_theme (st !! Theme.key)); simpl; solve_framed.
Qed.

Lemma framed_theme_effect (t : string) : framed (Theme.effect t).
Proof. intros w. world_cases w; js_unfold; simpl; solve_framed. Qed.

Lemma framed_banner_getInitial : framed Banner.getInitial.
Proof. intros w. world_cases w; js_unfold; simpl; solve_framed. Qed.

Lemma framed_banner_effect (d : bool) : framed (Banner.effect d).
Proof. intros w. world_cases w; js_unfold; simpl; solve_framed. Qed.

Lemma framed_handle (e : Page.Event) (p : Page.Page) : framed (Page.handle e p).
Proof.
  destruct e; simpl.
  - apply framed_bind; [|intros; apply framed_ret].
    apply framed_bind; [apply framed_theme_effect | intros; apply framed_ret].
  - apply framed_bind; [|intros; apply framed_ret].
    apply framed_bind; [apply framed_theme_effect | intros; apply framed_ret].
  - apply framed_bind; [|intros; apply framed_ret].
    unfold Banner.dismiss. destruct (Page.dismissed p); [apply framed_ret|].
    apply framed_bind; [apply framed_banner_effect | intros; apply framed_ret].
Qed.

Lemma framed_handle_all (es : list Page.Event) (p : Page.Page) :
  framed (Page.handle_all es p).
Proof.
  revert p. induction es as [|e es IH]; intros p; simpl.
  - apply framed_ret.
  - apply framed_bind; [apply framed_handle | intros; apply IH].
Qed.

Lemma framed_mount : framed Page.mount.
Proof.
  unfold Page.mount.
  repeat first
    [ apply framed_ret
    | apply framed_bind;
      [ first [ apply framed_theme_getInitial | apply framed_banner_getInitial
              | apply framed_banner_effect | apply framed_theme_effect ]
      | intros ? ] ].
Qed.

(** X1. Whatever the user does in a session, in whatever world: every
    entry of the store under a key other than the two of the page keeps
    its value, no entry is removed, and when [setItem] cannot reach the
    store the store is unchanged. *)
Theorem X1_session_frames_store (es : list Page.Event) (w : World) :
  (forall k, k <> "edusphar-theme" -> k <> "edusphar-announce-dismissed" ->
             store (snd (Page.session es w)) !! k = store w !! k) /\
  (forall k, is_Some (store w !! k) ->
             is_Some (store (snd (Page.session es w)) !! k)) /\
  (~ writable w -> store (snd (Page.session es w)) = store w).
Proof.
  assert (H : framed (Page.session es)).
  { unfold Page.session.
    apply framed_bind; [apply framed_mount | intros; apply framed_handle_all]. }
  destruct (H w) as (_ & _ & _ & _ & H1 & H2 & H3). auto.
Qed.

(** ** Theme and banner across toggles and reloads *)

Lemma flip_flip (t : string) : is_theme_value t -> Theme.flip (Theme.flip t) = t.
Proof. intros [-> | ->]; reflexivity. Qed.

(** With a working [setItem] the effect of [useTheme] stores the theme. *)
Lemma theme_effect_writes (t : string) (w : World) :
  writable w ->
  Theme.effect t w =
    (Ret tt,
     mkWorld (window_defined w) (document_defined w) (localStorage w)
             (matchMedia w) (<[Theme.key := t]> (store w))
             (if document_defined w then bool_decide (t = "dark")
              else root_dark w)
             (log w ++ [Written Theme.key t])%list).
Proof.
  intros (Hwin & g & Hls).
  destruct w as [win doc ls mm st rd lg]; simpl in *; subst.
  destruct doc; reflexivity.
Qed.

Lemma banner_effect_writes (d : bool) (w : World) :
  writable w ->
  Banner.effect d w =
    (Ret tt,
     mkWorld (window_defined w) (document_defined w) (localStorage w)
             (matchMedia w) (<[Banner.storageKey := Banner.flag d]> (store w))
             (root_dark w)
             (log w ++ [Written Banner.storageKey (Banner.flag d)])%list).
Proof.
  intros (Hwin & g & Hls).
  destruct w as [win doc ls mm st rd lg]; simpl in *; subst. reflexivity.
Qed.

(** With working storage [getInitial] returns by precedence and only logs. *)
Lemma theme_getInitial_works (w : World) :
  works w ->
  exists l, Theme.getInitial w =
    (Ret (precedence (store w !! Theme.key) (reports_dark (matchMedia w))),
     mkWorld (window_defined w) (document_defined w) (localStorage w)
             (matchMedia w) (store w) (root_dark w) (log w ++ l)%list).
Proof.
  intros (Hwin & Hls).
  destruct w as [win doc ls mm st rd lg]; simpl in *; subst.
  destruct (Theme.is_theme (st !! Theme.key)) eqn:E.
  - exists [Read Theme.key]. js_unfold. simpl. rewrite E. simpl.
    apply is_theme_true in E as [E | E]; rewrite E; reflexivity.
  - rewrite (precedence_other _ _ E).
    destruct mm as [| | []]; js_unfold; simpl; rewrite E; simpl;
      eexists; rewrite <- ?app_assoc; reflexivity.
Qed.

Lemma banner_getInitial_works (w : World) :
  works w ->
  Banner.getInitial w =
    (Ret (bool_decide (store w !! Banner.storageKey = Some "1")),
     mkWorld (window_defined w) (document_defined w) (localStorage w)
             (matchMedia w) (store w) (root_dark w)
             (log w ++ [Read Banner.storageKey])%list).
Proof.
  intros (Hwin & Hls).
  destruct w as [win doc ls mm st rd lg]; simpl in *; subst. reflexivity.
Qed.

Lemma works_writable (w : World) : works w -> writable w.
Proof. intros (H1 & H2). split; eauto. Qed.

Lemma precedence_stored (t : string) (os_dark : bool) :
  is_theme_value t -> precedence (Some t) os_dark = t.
Proof. intros [-> | ->]; reflexivity. Qed.

Lemma precedence_valid (stored : option string) (os_dark : bool) :
  is_theme_value (precedence stored os_dark).
Proof.
  unfold precedence, is_theme_value.
  destruct stored as [v|]; repeat case_bool_decide; destruct os_dark; auto.
Qed.

(** X2. With a working [setItem], toggling from a theme that is "dark" or
    "light" stores the other theme, and toggling again brings back the
    first one, in memory and in the store. *)
Theorem X2_toggle_twice (w : World) (t : string) :
  writable w -> is_theme_value t ->
  exists w1 w2,
    Theme.toggle t w = (Ret (Theme.flip t), w1) /\
    store w1 !! Theme.key = Some (Theme.flip t) /\
    Theme.toggle (Theme.flip t) w1 = (Ret t, w2) /\
    store w2 !! Theme.key = Some t.
Proof.
  intros Hw Ht.
  unfold Theme.toggle, bind. rewrite (theme_effect_writes _ w Hw).
  eexists _, _. split; [reflexivity|]. split; [apply lookup_insert_eq|].
  rewrite theme_effect_writes by exact Hw.
  rewrite (flip_flip t Ht). split; [reflexivity|]. apply lookup_insert_eq.
Qed.

Lemma X2_toggle_twice_witness :
  exists w1 w2,
    Theme.toggle "light" (first_visit true) = (Ret "dark", w1) /\
    store w1 !! Theme.key = Some "dark" /\
    Theme.toggle "dark" w1 = (Ret "light", w2) /\
    store w2 !! Theme.key = Some "light".
Proof.
  apply (X2_toggle_twice (first_visit true) "light").
  - split; [reflexivity | exists MWorks; reflexivity].
  - right. reflexivity.
Defined.

(** X3. With working storage the theme survives a reload whatever the OS
    signal has become by then: after mounting, a reloaded page starts with
    the theme the mount ended with, and after a toggle it starts with the
    toggled theme. *)
Theorem X3_theme_survives_reload (w : World) (t : string) (mm : MatchMedia) :
  works w ->
  fst (Theme.getInitial (reload (snd (Theme.mount w)) mm)) = fst (Theme.mount w) /\
  fst (Theme.getInitial (reload (snd (Theme.toggle t w)) mm)) = Ret (Theme.flip t).
Proof.
  intros Hw. pose proof (works_writable w Hw) as Hwr.
  assert (Hre : forall t0 w0 l0,
             is_theme_value t0 ->
             fst (Theme.getInitial
                    (reload (mkWorld (window_defined w) (document_defined w)
                               (localStorage w) (matchMedia w)
                               (<[Theme.key := t0]> (store w)) w0 l0) mm))
             = Ret t0).
  { intros t0 w0 l0 Ht0.
    match goal with |- fst (Theme.getInitial ?x) = _ =>
      destruct (theme_getInitial_works x) as [l ->] end.
    - destruct Hw as (H1 & H2). split; assumption.
    - simpl. rewrite lookup_insert_eq. rewrite (precedence_stored _ _ Ht0).
      reflexivity. }
  split.
  - unfold Theme.mount, bind.
    destruct (theme_getInitial_works w Hw) as [l ->].
    rewrite theme_effect_writes by (destruct Hwr as (H1 & g & H2); split; eauto).
    simpl. apply Hre, precedence_valid.
  - unfold Theme.toggle, bind. rewrite (theme_effect_writes _ w Hwr). simpl.
    apply Hre, flip_theme.
Qed.

Lemma X3_theme_survives_reload_witness :
  fst (Theme.getInitial (reload (snd (Theme.mount (first_visit true))) (MmMatches false)))
  = fst (Theme.mount (first_visit true)) /\
  fst (Theme.getInitial
         (reload (snd (Theme.toggle "dark" (first_visit true))) (MmMatches false)))
  = Ret (Theme.flip "dark").
Proof.
  apply (X3_theme_survives_reload (first_visit true) "dark" (MmMatches false)).
  split; reflexivity.
Defined.

(** The first visit fixes the theme: the OS asked for dark then, so the
    page stays dark on later visits although the OS asks for light. *)
Example first_visit_fixes_theme :
  fst (Theme.mount (first_visit true)) = Ret "dark" /\
  fst (Theme.mount (reload (snd (Theme.mount (first_visit true))) (MmMatches false)))
  = Ret "dark".
Proof. vm_compute. split; reflexivity. Qed.

Lemma keys_differ : Theme.key <> Banner.storageKey.
Proof. discriminate. Qed.

Lemma mount_mirrored (w : World) :
  works w -> exists p w', Page.mount w = (Ret p, w') /\ mirrored p w'.
Proof.
  intros Hw. pose proof (works_writable w Hw) as Hwr.
  unfold Page.mount, bind.
  destruct (theme_getInitial_works w Hw) as [l1 ->].
  rewrite banner_getInitial_works by exact Hw. simpl.
  match goal with |- context [Theme.getInitial ?x] =>
    destruct (theme_getInitial_works x Hw) as [l2 ->] end. simpl.
  rewrite banner_effect_writes by exact Hwr. simpl.
  rewrite theme_effect_writes by exact Hwr. simpl.
  rewrite theme_effect_writes by exact Hwr. simpl.
  eexists _, _. split; [reflexivity|].
  unfold mirrored. simpl. split; [exact Hw|]. split.
  - rewrite !lookup_insert_ne by apply keys_differ. apply lookup_insert_eq.
  - left. apply lookup_insert_eq.
Qed.

Lemma handle_mirrored (e : Page.Event) (p : Page.Page) (w : World) :
  mirrored p w ->
  exists p' w', Page.handle e p w = (Ret p', w') /\ mirrored p' w'.
Proof.
  intros (Hw & Hb & Ht). pose proof (works_writable w Hw) as Hwr.
  destruct e; simpl; unfold bind, Theme.toggle, Banner.dismiss, bind.
  - rewrite theme_effect_writes by exact Hwr. simpl.
    eexists _, _. split; [reflexivity|]. unfold mirrored. simpl.
    split; [exact Hw|]. split.
    + rewrite lookup_insert_ne by apply keys_differ. exact Hb.
    + left. apply lookup_insert_eq.
  - rewrite theme_effect_writes by exact Hwr. simpl.
    eexists _, _. split; [reflexivity|]. unfold mirrored. simpl.
    split; [exact Hw|]. split.
    + rewrite lookup_insert_ne by apply keys_differ. exact Hb.
    + right. apply lookup_insert_eq.
  - destruct (Page.dismissed p) eqn:Ed; simpl.
    + eexists _, _. split; [reflexivity|]. unfold mirrored. simpl.
      auto.
    + rewrite banner_effect_writes by exact Hwr. simpl.
      eexists _, _. split; [reflexivity|]. unfold mirrored. simpl.
      split; [exact Hw|]. split.
      * apply lookup_insert_eq.
      * rewrite !lookup_insert_ne
          by (intros E; symmetry in E; exact (keys_differ E)).
        exact Ht.
Qed.

Lemma handle_all_mirrored (es : list Page.Event) (p : Page.Page) (w : World) :
  mirrored p w ->
  exists p' w', Page.handle_all es p w = (Ret p', w') /\ mirrored p' w'.
Proof.
  revert p w. induction es as [|e es IH]; intros p w Hm; simpl.
  - exists p, w. split; [reflexivity | exact Hm].
  - destruct (handle_mirrored e p w Hm) as (p1 & w1 & E1 & Hm1).
    unfold bind. rewrite E1. apply IH, Hm1.
Qed.

(** X4. With working storage the store mirrors the page after every
    session: the banner's entry is "1" exactly when the banner is
    dismissed in memory and "0" if not, and the theme's entry is the theme
    of one of the two [useTheme] instances. *)
Theorem X4_store_mirrors_page (es : list Page.Event) (w : World) :
  works w ->
  exists p w', Page.session es w = (Ret p, w') /\
    store w' !! "edusphar-announce-dismissed"
      = Some (if Page.dismissed p then "1" else "0") /\
    (store w' !! "edusphar-theme" = Some (Page.page_theme p) \/
     store w' !! "edusphar-theme" = Some (Page.header_theme p)).
Proof.
  intros Hw. destruct (mount_mirrored w Hw) as (p0 & w0 & E0 & Hm0).
  destruct (handle_all_mirrored es p0 w0 Hm0) as (p & w' & E & (_ & Hb & Ht)).
  exists p, w'. unfold Page.session, bind. rewrite E0. auto.
Qed.

Lemma X4_store_mirrors_page_witness :
  exists p w',
    Page.session [Page.ToggleHeader; Page.Dismiss] (first_visit false) = (Ret p, w') /\
    store w' !! "edusphar-announce-dismissed"
      = Some (if Page.dismissed p then "1" else "0") /\
    (store w' !! "edusphar-theme" = Some (Page.page_theme p) \/
     store w' !! "edusphar-theme" = Some (Page.header_theme p)).
Proof.
  apply (X4_store_mirrors_page [Page.ToggleHeader; Page.Dismiss] (first_visit false)).
  split; reflexivity.
Defined.

Lemma same_device_trans (w1 w2 w3 : World) :
  same_device w1 w2 -> same_device w2 w3 -> same_device w1 w3.
Proof. unfold same_device. intuition congruence. Qed.

Lemma theme_getInitial_same_device (w : World) :
  same_device w (snd (Theme.getInitial w)).
Proof.
  unfold same_device.
  world_cases w; js_unfold; simpl;
    try destruct (Theme.is_theme (st !! Theme.key)); simpl; repeat split.
Qed.

Lemma banner_getInitial_same_device (w : World) :
  same_device w (snd (Banner.getInitial w)).
Proof.
  unfold same_device. world_cases w; js_unfold; simpl; repeat split.
Qed.

(** The initial theme depends on the device only, not on the document or
    on the trace. *)
Lemma theme_getInitial_device (w w' : World) :
  same_device w w' -> fst (Theme.getInitial w') = fst (Theme.getInitial w).
Proof.
  intros (H1 & H2 & H3 & H4).
  destruct w as [win doc ls mm st rd lg], w' as [win' doc' ls' mm' st' rd' lg'].
  simpl in *. subst.
  destruct win; [|reflexivity].
  destruct ls as [| | [] s]; destruct mm as [| | []]; js_unfold; simpl;
    try destruct (Theme.is_theme (st !! Theme.key)); reflexivity.
Qed.

(** X5. The two [useTheme] instances of the page are not linked. They
    start equal; a click on the header's button flips the header's theme
    only, so the two differ and the root's class follows the header; a
    click on the floating button then flips the page's theme, which makes
    the two equal again and leaves the root's class as it was. *)
Theorem X5_two_theme_instances (w : World) :
  document_defined w = true ->
  exists p0 w0 p1 w1 p2 w2,
    Page.mount w = (Ret p0, w0) /\
    Page.page_theme p0 = Page.header_theme p0 /\
    Page.handle Page.ToggleHeader p0 w0 = (Ret p1, w1) /\
    Page.page_theme p1 = Page.page_theme p0 /\
    Page.header_theme p1 = Theme.flip (Page.header_theme p0) /\
    root_dark w1 = bool_decide (Page.header_theme p1 = "dark") /\
    Page.handle Page.ToggleFloating p1 w1 = (Ret p2, w2) /\
    Page.page_theme p2 = Page.header_theme p2 /\
    root_dark w2 = root_dark w1.
Proof.
  intros Hdoc.
  destruct (theme_getInitial_returns w) as (pt & w1 & l1 & E1 & _).
  destruct (banner_getInitial_returns w1) as (d & w2 & l2 & E2 & _).
  destruct (theme_getInitial_returns w2) as (ht & w3 & l3 & E3 & _).
  destruct (banner_effect_returns d w3) as (w4 & l4 & E4 & _).
  destruct (theme_effect_total ht w4) as (w5 & E5 & _).
  destruct (theme_effect_total pt w5) as (w0 & E6 & _).
  assert (Em : Page.mount w = (Ret (Page.mkPage pt ht d), w0)).
  { unfold Page.mount, bind. rewrite E1, E2, E3, E4, E5, E6. reflexivity. }
  assert (Eq : ht = pt).
  { assert (Hd : same_device w w2).
    { eapply same_device_trans.
      - pose proof (theme_getInitial_same_device w) as H1.
        rewrite E1 in H1. exact H1.
      - pose proof (banner_getInitial_same_device w1) as H2.
        rewrite E2 in H2. exact H2. }
    pose proof (theme_getInitial_device w w2 Hd) as H.
    rewrite E1, E3 in H. simpl in H. congruence. }
  subst ht.
  assert (Hdoc0 : document_defined w0 = true).
  { pose proof (framed_mount w) as (_ & H & _). rewrite Em in H. simpl in H.
    congruence. }
  destruct (theme_effect_total (Theme.flip pt) w0) as (w1' & E7 & R7).
  rewrite Hdoc0 in R7.
  assert (Hdoc1 : document_defined w1' = true).
  { pose proof (framed_theme_effect (Theme.flip pt) w0) as (_ & H & _).
    rewrite E7 in H. simpl in H. congruence. }
  destruct (theme_effect_total (Theme.flip pt) w1') as (w2' & E8 & R8).
  rewrite Hdoc1 in R8.
  exists (Page.mkPage pt pt d), w0,
         (Page.mkPage pt (Theme.flip pt) d), w1',
         (Page.mkPage (Theme.flip pt) (Theme.flip pt) d), w2'.
  split; [exact Em|]. split; [reflexivity|]. split.
  { simpl. unfold Theme.toggle, bind. rewrite E7. reflexivity. }
  split; [reflexivity|]. split; [reflexivity|]. split; [exact R7|]. split.
  { simpl. unfold Theme.toggle, bind. rewrite E8. reflexivity. }
  split; [reflexivity|]. simpl. congruence.
Qed.

Lemma X5_two_theme_instances_witness :
  exists p0 w0 p1 w1 p2 w2,
    Page.mount (first_visit false) = (Ret p0, w0) /\
    Page.page_theme p0 = Page.header_theme p0 /\
    Page.handle Page.ToggleHeader p0 w0 = (Ret p1, w1) /\
    Page.page_theme p1 = Page.page_theme p0 /\
    Page.header_theme p1 = Theme.flip (Page.header_theme p0) /\
    root_dark w1 = bool_decide (Page.header_theme p1 = "dark") /\
    Page.handle Page.ToggleFloating p1 w1 = (Ret p2, w2) /\
    Page.page_theme p2 = Page.header_theme p2 /\
    root_dark w2 = root_dark w1.
Proof.
  apply (X5_two_theme_instances (first_visit false)). reflexivity.
Defined.

(** X6. With working storage a dismissal survives a reload: after the
    banner was mounted and dismissed, a reloaded page starts with the
    banner dismissed, and so does not render it. *)
Theorem X6_dismissal_survives_reload (w : World) (mm : MatchMedia) :
  works w ->
  fst (bind Banner.mount Banner.dismiss w) = Ret true /\
  fst (Banner.mount (reload (snd (bind Banner.mount Banner.dismiss w)) mm))
    = Ret true /\
  Banner.rendered true = false.
Proof.
  intros Hw. pose proof (works_writable w Hw) as Hwr.
  unfold Banner.mount, Banner.dismiss, bind.
  rewrite (banner_getInitial_works w Hw). simpl.
  rewrite banner_effect_writes by exact Hwr. simpl.
  destruct (bool_decide (store w !! Banner.storageKey = Some "1")) eqn:Ed; simpl.
  - apply bool_decide_eq_true in Ed. split; [reflexivity|].
    rewrite banner_getInitial_works by exact Hw. simpl.
    rewrite lookup_insert_eq. simpl.
    rewrite banner_effect_writes by exact Hwr. auto.
  - rewrite banner_effect_writes by exact Hwr. simpl. split; [reflexivity|].
    rewrite banner_getInitial_works by exact Hw. simpl.
    rewrite lookup_insert_eq. simpl.
    rewrite banner_effect_writes by exact Hwr. auto.
Qed.

Lemma X6_dismissal_survives_reload_witness :
  fst (bind Banner.mount Banner.dismiss (first_visit false)) = Ret true /\
  fst (Banner.mount
         (reload (snd (bind Banner.mount Banner.dismiss (first_visit false)))
                 (MmMatches true)))
    = Ret true /\
  Banner.rendered true = false.
Proof.
  apply (X6_dismissal_survives_reload (first_visit false) (MmMatches true)).
  split; reflexivity.
Defined.

(** X7. When the persisted flag cannot be read (no window, storage denied
    or missing, [getItem] missing or throwing) the banner starts visible
    whatever the store holds; a dismissal still hides it in memory, and it
    is visible again after a reload. *)
Theorem X7_banner_without_readable_storage (w : World) (os : MatchMedia) :
  unreadable w ->
  fst (Banner.mount w) = Ret false /\
  fst (bind Banner.mount Banner.dismiss w) = Ret true /\
  fst (Banner.mount (reload (snd (bind Banner.mount Banner.dismiss w)) os))
    = Ret false.
Proof.
  intros Hu. unfold unreadable in Hu.
  world_cases w; simpl in Hu; destruct Hu as [Hu | Hu];
    try discriminate Hu; try contradiction;
    repeat split.
Qed.

Lemma X7_banner_without_readable_storage_witness :
  fst (Banner.mount blocked_dark) = Ret false /\
  fst (bind Banner.mount Banner.dismiss blocked_dark) = Ret true /\
  fst (Banner.mount
         (reload (snd (bind Banner.mount Banner.dismiss blocked_dark))
                 (MmMatches true)))
    = Ret false.
Proof.
  apply (X7_banner_without_readable_storage blocked_dark (MmMatches true)).
  right. exact I.
Defined.

(** ** The counter: teardown, range, endless runs *)

Section CounterExtras.
Import Num RafCounter.
Local Open Scope Q_scope.

Lemma frames_idle (tss : list Q) (c : Counter) :
  Raf.pending (raf c) = [] -> frames tss c = c.
Proof.
  intros H. induction tss as [|t rest IH]; [reflexivity|].
  unfold frames in *. simpl. rewrite (frame_idle t c H). exact IH.
Qed.

(** X8. Teardown of the counter: in every state a mounted counter can
    reach, the cleanup of the effect leaves no frame request pending, and
    no later frame changes the counter; a stale callback never writes the
    state. *)
Theorem X8_counter_cleanup_is_final (c : Counter) (tss : list Q) :
  reachable c ->
  Raf.pending (raf (cleanup c)) = [] /\
  frames tss (cleanup c) = cleanup c /\
  val (frames tss (cleanup c)) = val c.
Proof.
  intros Hr. pose proof (reachable_one_pending c Hr) as Hone.
  pose proof (cleanup_empties_queue c Hone) as Hq.
  split; [exact Hq|]. rewrite (frames_idle tss _ Hq). split; reflexivity.
Qed.

Lemma X8_counter_cleanup_is_final_witness :
  Raf.pending (raf (cleanup (frame 100 (mount true 1000 1000)))) = [] /\
  frames [600; 1100] (cleanup (frame 100 (mount true 1000 1000)))
    = cleanup (frame 100 (mount true 1000 1000)) /\
  val (frames [600; 1100] (cleanup (frame 100 (mount true 1000 1000))))
    = val (frame 100 (mount true 1000 1000)).
Proof.
  apply (X8_counter_cleanup_is_final (frame 100 (mount true 1000 1000)) [600; 1100]).
  apply (reach_handle _ (Frame 100)), reach_mount.
Defined.

(** Without a window the counter shows the target at once, requests
    no frame, and stays there. *)
Lemma counter_without_window_stays (tgt : Z) (dur : Q) (tss : list Q) :
  val (mount false tgt dur) = Int tgt /\
  Raf.pending (raf (mount false tgt dur)) = [] /\
  frames tss (mount false tgt dur) = mount false tgt dur.
Proof.
  split; [reflexivity|]. split; [reflexivity|]. apply frames_idle. reflexivity.
Qed.

(** X9. For a positive duration and frames whose timestamps are positive
    and never decrease, whatever the sign of the integer target (a
    double): every value shown is an integer between 0 and the target,
    so the counter never overshoots and never shows NaN; and for a target
    that is not positive the values shown never increase. *)
Theorem X9_counter_stays_in_range (tgt : Z) (dur t0 : Q) (ts : list Q) :
  0 < dur -> is_double (inject_Z tgt) -> 0 < t0 -> nondecreasing_from t0 ts ->
  (forall (i : nat) (v : display),
      displayed (t0 :: ts) (mount true tgt dur) !! i = Some v ->
      exists z, v = Int z /\ (Z.min 0 tgt <= z <= Z.max 0 tgt)%Z) /\
  ((tgt <= 0)%Z ->
   forall (i j : nat) (a b : Z),
     (i <= j)%nat ->
     displayed (t0 :: ts) (mount true tgt dur) !! i = Some (Int a) ->
     displayed (t0 :: ts) (mount true tgt dur) !! j = Some (Int b) ->
     (b <= a)%Z).
Proof.
  intros Hd Htd Ht0 Hs.
  assert (Hnz : ~ dur == 0) by lra.
  pose proof (displayed_fresh (mount true tgt dur) t0 ts Hnz Ht0
                (mount_fresh tgt dur) Hs) as Hshown.
  simpl target in Hshown. simpl duration in Hshown.
  assert (Hnd : nondecreasing_from t0 (t0 :: ts)).
  { split; [apply Qle_refl | exact Hs]. }
  rewrite Hshown. split.
  - intros i v Hi. rewrite list_lookup_fmap in Hi.
    destruct ((t0 :: ts) !! i) as [t|] eqn:E; [|discriminate].
    simpl in Hi. inversion Hi.
    apply expected_range; auto. eapply nondecreasing_lookup; eauto.
  - intros Htgt i j a b Hij Hi Hj. rewrite list_lookup_fmap in Hi, Hj.
    destruct ((t0 :: ts) !! i) as [ti|] eqn:Ei; [|discriminate].
    destruct ((t0 :: ts) !! j) as [tj|] eqn:Ej; [|discriminate].
    simpl in Hi, Hj. inversion Hi as [Ha]. inversion Hj as [Hb].
    apply (expected_antimono tgt dur t0 ti tj a b); auto.
    + eapply nondecreasing_lookup; eauto.
    + eapply nondecreasing_pair; eauto.
Qed.

Lemma X9_counter_stays_in_range_witness :
  exists z, val (frame 600 (frame 100 (mount true (-10) 1000))) = Int z /\
            (Z.min 0 (-10) <= z <= Z.max 0 (-10))%Z.
Proof.
  refine (proj1 (X9_counter_stays_in_range (-10) 1000 100 [600; 1100] _ _ _ _)
                1%nat _ _).
  - reflexivity.
  - split; vm_compute; reflexivity.
  - reflexivity.
  - simpl. repeat split; discriminate.
  - reflexivity.
Defined.

End CounterExtras.

Section CounterEndless.
Import Num RafCounter.
Local Open Scope Q_scope.

Lemma lookup_last_cons (t0 : Q) (ts : list Q) :
  exists t, (t0 :: ts) !! length ts = Some t.
Proof.
  destruct ((t0 :: ts) !! length ts) as [t|] eqn:E; [eauto|].
  apply lookup_ge_None in E. simpl in E. lia.
Qed.

(** X10. A negative duration makes the animation endless: with frames
    whose timestamps are positive and never decrease, a frame request is
    pending after every frame, however many frames have fired. *)
Theorem X10_negative_duration_never_stops (tgt : Z) (dur t0 : Q) (ts : list Q) :
  dur < 0 -> 0 < t0 -> nondecreasing_from t0 ts ->
  exists id,
    Raf.pending (raf (frames (t0 :: ts) (mount true tgt dur))) = [id].
Proof.
  intros Hd Ht0 Hs.
  assert (Hnz : ~ dur == 0) by lra.
  destruct (lookup_last_cons t0 ts) as (t & Hk).
  assert (Hnd : nondecreasing_from t0 (t0 :: ts)).
  { split; [apply Qle_refl | exact Hs]. }
  pose proof (nondecreasing_lookup _ _ _ _ Hnd Hk) as Hle.
  destruct (frames_fresh (mount true tgt dur) t0 ts (length ts) t Hnz Ht0
              (mount_fresh tgt dur) Hs Hk) as ((_ & _ & _ & Hq) & _ & Ed).
  rewrite Ed in Hq. simpl duration in Hq.
  rewrite (take_ge (t0 :: ts)) in Hq by (simpl; lia).
  destruct Hq as [(_ & id & _ & Hp & _) | (Hl & _)].
  - exists id. exact Hp.
  - rewrite (progress_backwards dur t0 t Hd Hle) in Hl. discriminate.
Qed.

Lemma X10_negative_duration_never_stops_witness :
  exists id,
    Raf.pending (raf (frames [100; 600; 5000] (mount true 90 (-1400)))) = [id].
Proof.
  apply (X10_negative_duration_never_stops 90 (-1400) 100 [600; 5000]).
  - reflexivity.
  - reflexivity.
  - simpl. repeat split; discriminate.
Defined.

End CounterEndless.

(** ** The scroll header: before the first scroll, after teardown *)

Section HeaderExtras.
Import Num ScrollHeader.
Local Open Scope Q_scope.

Lemma header_frame_idle (h : Header) :
  Raf.pending (raf h) = [] -> frame h = h.
Proof.
  intros H. destruct h as [thr sh ly ri [n p] li rc]. simpl in H. subst p.
  reflexivity.
Qed.

(** X11. Until the first scroll event nothing is recomputed: whatever the
    scroll position at mount, also one above the threshold, [shrunk] is
    false and stays false through any number of frames. *)
Theorem X11_header_waits_for_scroll (thr : Q) (y0 : option Q) (n : nat) :
  shrunk (run (repeat Frame n) (mount thr y0)) = false /\
  recomputed (run (repeat Frame n) (mount thr y0)) = 0%nat.
Proof.
  assert (H : run (repeat Frame n) (mount thr y0) = mount thr y0).
  { induction n as [|n IH]; [reflexivity|].
    simpl. unfold run in *. simpl. exact IH. }
  rewrite H. split; reflexivity.
Qed.

(** X12. Teardown of the header: in every state a mounted header can
    reach, unmounting cancels the pending frame request and unsubscribes,
    so no later scroll event or frame changes [shrunk] or calls
    [setShrunk]. *)
Theorem X12_header_unmount_is_final
        (thr : Q) (y0 : option Q) (es later : list Event) :
  let h := unmount (run es (mount thr y0)) in
  Raf.pending (raf h) = [] /\ listening h = false /\
  run later h = h /\
  shrunk (run later h) = shrunk (run es (mount thr y0)) /\
  recomputed (run later h) = recomputed (run es (mount thr y0)).
Proof.
  intros h.
  assert (Hok : header_ok thr (run es (mount thr y0))) by apply run_ok, mount_ok.
  assert (Hq : Raf.pending (raf h) = []) by (apply (cancel_last _ thr), Hok).
  assert (Hl : listening h = false) by reflexivity.
  assert (Hrun : run later h = h).
  { clear Hok. induction later as [|e later IH]; [reflexivity|].
    unfold run in *. simpl.
    destruct e as [y|]; simpl.
    - unfold scroll. rewrite Hl. exact IH.
    - rewrite (header_frame_idle h Hq). exact IH. }
  rewrite Hrun. repeat split; auto.
Qed.

End HeaderExtras.

(** ** The mobile sheet: the listener, the handler at the ends *)

Section SheetListener.
Import NavSheet.
Context {Elem : Type} `{EqDecision Elem}.
Variables before sheet after : list Elem.

Local Abbreviation keydown := (keydown before sheet after).
Local Abbreviation handle := (handle before sheet after).
Local Abbreviation run := (run before sheet after).

Lemma setMobileOpen_listening (b : bool) (n : Nav) :
  listening n = mobileOpen n ->
  listening (setMobileOpen sheet b n) = mobileOpen (setMobileOpen sheet b n).
Proof.
  intros Hn. unfold setMobileOpen. case_bool_decide as Hb; [exact Hn|].
  destruct b; simpl.
  - unfold run_effect. simpl. destruct (head (focusable sheet)); reflexivity.
  - unfold cleanup. simpl. destruct (prev n); reflexivity.
Qed.

Lemma handle_listening (e : Event) (n : Nav) :
  listening n = mobileOpen n ->
  listening (handle n e) = mobileOpen (handle n e).
Proof.
  intros Hn. destruct e as [ | | | [ | shiftKey | ] | ].
  - apply setMobileOpen_listening; exact Hn.
  - apply setMobileOpen_listening; exact Hn.
  - apply setMobileOpen_listening; exact Hn.
  - simpl. destruct (listening n) eqn:El;
      [apply setMobileOpen_listening|]; congruence.
  - change (handle n (KeyDown (Tab shiftKey))) with (keydown (Tab shiftKey) n).
    destruct (tab_fields before sheet after shiftKey n) as (Eo & _ & El).
    rewrite El, Eo. exact Hn.
  - exact Hn.
  - simpl. unfold press_panel. destruct (mobileOpen n) eqn:Eo; simpl; congruence.
Qed.

(** X13. The keydown listener is attached exactly while the sheet is
    open, in every state reached from a closed sheet by any events; in
    particular a key pressed while the sheet is closed never reaches
    [onKey], so Escape then changes nothing. *)
Theorem X13_listener_only_while_open (e0 : option Elem) (es : list Event) :
  listening (run es (closed e0)) = mobileOpen (run es (closed e0)) /\
  (mobileOpen (run es (closed e0)) = false ->
   handle (run es (closed e0)) (KeyDown Escape) = run es (closed e0)).
Proof.
  assert (H1 : forall n, listening n = mobileOpen n ->
                         listening (run es n) = mobileOpen (run es n)).
  { induction es as [|e rest IH]; intros n Hn; [exact Hn|].
    simpl. apply IH, handle_listening, Hn. }
  specialize (H1 (closed e0) eq_refl). split; [exact H1|].
  intros Hc. simpl. rewrite H1, Hc. reflexivity.
Qed.

End SheetListener.

Section SheetHandler.
Import NavSheet.
Context {Elem : Type} `{EqDecision Elem}.
Variable sheet : list Elem.
Hypothesis distinct : NoDup sheet.

Local Abbreviation trap := (trap sheet).

Lemma indexOf_none (arr : list Elem) : indexOf arr None = (-1)%Z.
Proof.
  induction arr as [|y rest IH]; [reflexivity|].
  simpl. rewrite IH. reflexivity.
Qed.

(** The index of the focused element is that of an end of the sheet
    exactly when that end has focus. *)
Lemma indexOf_end (x : option Elem) (k : nat) :
  (k < length sheet)%nat ->
  indexOf sheet x = Z.of_nat k <-> x = sheet !! k.
Proof.
  intros Hk. destruct (lookup_lt_is_Some_2 sheet k Hk) as [e He].
  rewrite He. split.
  - intros Hi. destruct x as [y|]; [|rewrite indexOf_none in Hi; lia].
    destruct (decide (y ∈ sheet)) as [Hin | Hout].
    + destruct (indexOf_elem sheet y Hin) as (_ & Hl).
      rewrite Hi, Nat2Z.id in Hl. congruence.
    + rewrite (indexOf_notin sheet y Hout) in Hi. lia.
  - intros ->. apply indexOf_lookup; assumption.
Qed.

(** X14. The Tab branch of [onKey] acts at the two ends of the sheet
    and nowhere else. With the sheet's focusable elements distinct and
    at least one of them: it calls [preventDefault] exactly when Shift
    is down and the first element has focus, or Shift is up and the last
    element has focus, and it then moves focus to the other end; in
    every other case, also when focus is on no element of the sheet, it
    changes nothing and leaves the key to the browser. *)
Theorem X14_trap_acts_at_the_ends (shiftKey : bool) (n : Nav) :
  sheet <> [] ->
  (snd (trap shiftKey n) = true <->
   activeElement n = if shiftKey then head sheet else last sheet) /\
  (snd (trap shiftKey n) = true ->
   fst (trap shiftKey n)
   = mkNav (mobileOpen n) (if shiftKey then last sheet else head sheet)
           (prev n) (listening n)) /\
  (snd (trap shiftKey n) = false -> fst (trap shiftKey n) = n).
Proof.
  intros Hne.
  assert (Hlen : (0 < length sheet)%nat).
  { destruct sheet; [contradiction | simpl; lia]. }
  assert (Hpos : (0 <? Z.of_nat (length sheet))%Z = true)
    by (apply Z.ltb_lt; lia).
  destruct (lookup_lt_is_Some_2 sheet 0) as [f Hf]; [lia|].
  destruct (lookup_lt_is_Some_2 sheet (length sheet - 1)) as [l Hl]; [lia|].
  pose proof (indexOf_end (activeElement n) 0 Hlen) as H0.
  pose proof (indexOf_end (activeElement n) (length sheet - 1)) as H1.
  rewrite Nat2Z.inj_sub in H1 by lia. specialize (H1 ltac:(lia)).
  change (Z.of_nat 0) with 0%Z in H0. change (Z.of_nat 1) with 1%Z in H1.
  rewrite head_lookup, last_lookup.
  replace (Init.Nat.pred (length sheet)) with (length sheet - 1)%nat by lia.
  unfold trap, NavSheet.trap, focusable. rewrite Hpos.
  destruct shiftKey; simpl.
  - destruct (indexOf sheet (activeElement n) =? 0)%Z eqn:E.
    + apply Z.eqb_eq in E. simpl. split; [tauto|]. split; [|discriminate].
      intros _. unfold at_index.
      destruct (_ <? 0)%Z eqn:E2; [apply Z.ltb_lt in E2; lia|].
      replace (Z.to_nat (Z.of_nat (length sheet) - 1))
        with (length sheet - 1)%nat by lia.
      rewrite Hl. reflexivity.
    + apply Z.eqb_neq in E. simpl. split; [|split; [discriminate | reflexivity]].
      split; [discriminate|]. intros H. apply H0 in H. contradiction.
  - destruct (indexOf sheet (activeElement n) =? Z.of_nat (length sheet) - 1)%Z
      eqn:E.
    + apply Z.eqb_eq in E. simpl. split; [tauto|]. split; [|discriminate].
      intros _. unfold at_index. simpl. change (Z.to_nat 0) with 0%nat.
      rewrite Hf. reflexivity.
    + apply Z.eqb_neq in E. simpl. split; [|split; [discriminate | reflexivity]].
      split; [discriminate|]. intros H. apply H1 in H. contradiction.
Qed.

End SheetHandler.

Lemma X14_trap_acts_at_the_ends_witness :
  (snd (NavSheet.trap NavSheet.sheet_of_header false
          (NavSheet.mkNav true (Some "Sign up free") (Some "Open menu") true))
   = true <->
   Some "Sign up free" = last NavSheet.sheet_of_header) /\
  (snd (NavSheet.trap NavSheet.sheet_of_header true
          (NavSheet.mkNav true None (Some "Open menu") true))
   = true <->
   None = head NavSheet.sheet_of_header).
Proof.
  assert (Hd : NoDup NavSheet.sheet_of_header).
  { refine (bool_decide_unpack _ _). vm_compute. exact I. }
  assert (Hne : NavSheet.sheet_of_header <> []) by discriminate.
  split.
  - exact (proj1 (X14_trap_acts_at_the_ends NavSheet.sheet_of_header Hd false
                    (NavSheet.mkNav true (Some "Sign up free")
                                    (Some "Open menu") true) Hne)).
  - exact (proj1 (X14_trap_acts_at_the_ends NavSheet.sheet_of_header Hd true
                    (NavSheet.mkNav true None (Some "Open menu") true) Hne)).
Defined.

(** ** [cn], the search form, the category chips, [App] *)

Section SmallComponents.
Import ClassNames.

Lemma string_app_assoc (a b c : string) : ((a ++ b) ++ c = a ++ (b ++ c))%string.
Proof.
  induction a as [|x a IH]; [reflexivity|].
  change (String x ((a ++ b) ++ c) = String x (a ++ (b ++ c)))%string.
  f_equal. exact IH.
Qed.

Lemma string_app_nonempty (a b : string) : a <> "" -> (a ++ b)%string <> "".
Proof. destruct a; [congruence | discriminate]. Qed.

Lemma concat_app (sep : string) (l1 l2 : list string) :
  l1 <> [] -> l2 <> [] ->
  String.concat sep (l1 ++ l2)
  = (String.concat sep l1 ++ sep ++ String.concat sep l2)%string.
Proof.
  intros H1 H2. induction l1 as [|x rest IH]; [contradiction|].
  destruct rest as [|y rest].
  - simpl. destruct l2; [contradiction | reflexivity].
  - change (String.concat sep ((x :: y :: rest) ++ l2))
      with (x ++ sep ++ String.concat sep ((y :: rest) ++ l2))%string.
    rewrite IH by discriminate.
    change (String.concat sep (x :: y :: rest))
      with (x ++ sep ++ String.concat sep (y :: rest))%string.
    rewrite !string_app_assoc. reflexivity.
Qed.

Lemma concat_nonempty (sep : string) (l : list string) :
  l <> [] -> Forall (fun s => s <> "") l -> String.concat sep l <> "".
Proof.
  intros Hl Hf. destruct l as [|x rest]; [contradiction|].
  apply Forall_cons in Hf as [Hx _].
  destruct rest; simpl; [exact Hx | apply string_app_nonempty, Hx].
Qed.

Lemma filter_Boolean_app (xs ys : list part) :
  filter_Boolean (xs ++ ys) = (filter_Boolean xs ++ filter_Boolean ys)%list.
Proof.
  induction xs as [|[s|] xs IH]; simpl; [reflexivity | | exact IH].
  destruct (negb (String.eqb s "")); simpl; rewrite IH; reflexivity.
Qed.

Lemma filter_Boolean_nonempty (xs : list part) :
  Forall (fun s => s <> "") (filter_Boolean xs).
Proof.
  induction xs as [|[s|] xs IH]; simpl; [constructor | | exact IH].
  destruct (String.eqb s "") eqn:E; simpl; [exact IH|].
  constructor; [|exact IH]. apply String.eqb_neq, E.
Qed.

Lemma filter_Boolean_nil (xs : list part) :
  filter_Boolean xs = [] <-> Forall (fun p => truthy p = false) xs.
Proof.
  induction xs as [|[s|] xs IH]; simpl.
  - split; [constructor | reflexivity].
  - destruct (negb (String.eqb s "")) eqn:E; simpl.
    + split; [discriminate|]. intros Hf. apply Forall_cons in Hf as [Hs _].
      simpl in Hs. congruence.
    + rewrite IH. split.
      * intros Hf. constructor; [exact E | exact Hf].
      * intros Hf. apply Forall_cons in Hf as [_ Hf]. exact Hf.
  - rewrite IH. split.
    + intros Hf. constructor; [reflexivity | exact Hf].
    + intros Hf. apply Forall_cons in Hf as [_ Hf]. exact Hf.
Qed.

Lemma cn_empty (xs : list part) : cn xs = "" <-> filter_Boolean xs = [].
Proof.
  unfold cn. split.
  - intros H. destruct (filter_Boolean xs) as [|x rest] eqn:E; [reflexivity|].
    exfalso. apply (concat_nonempty " " (x :: rest)); [discriminate | | exact H].
    rewrite <- E. apply filter_Boolean_nonempty.
  - intros ->. reflexivity.
Qed.

(** X15. [cn] can be nested: joining two argument lists gives the same
    class string as joining the results of [cn] on each, so a falsy or
    empty part never leaves a stray separator; and the result is the empty
    string exactly when every part is falsy. *)
Theorem X15_cn_nests (xs ys : list part) :
  cn (xs ++ ys) = cn [Some (cn xs); Some (cn ys)] /\
  (cn xs = "" <-> Forall (fun p => truthy p = false) xs).
Proof.
  split; [|rewrite cn_empty; apply filter_Boolean_nil].
  pose proof (cn_empty xs) as Hx. pose proof (cn_empty ys) as Hy.
  unfold cn at 1. rewrite filter_Boolean_app.
  unfold cn at 1. simpl filter_Boolean.
  destruct (String.eqb (cn xs) "") eqn:Ex, (String.eqb (cn ys) "") eqn:Ey; simpl.
  - apply String.eqb_eq in Ex, Ey. apply Hx in Ex. apply Hy in Ey.
    rewrite Ex, Ey. reflexivity.
  - apply String.eqb_eq in Ex. apply Hx in Ex. rewrite Ex. reflexivity.
  - apply String.eqb_eq in Ey. apply Hy in Ey. rewrite Ey, app_nil_r.
    reflexivity.
  - apply String.eqb_neq in Ex, Ey. apply concat_app.
    + intros E. apply Ex, Hx, E.
    + intros E. apply Ey, Hy, E.
Qed.

(** As the header uses it: the falsy branch leaves no trace. *)
Example cn_in_header :
  cn [Some "sticky top-0"; None; Some ""; Some "py-4"] = "sticky top-0 py-4" /\
  cn [None; Some ""] = "".
Proof. split; reflexivity. Qed.

End SmallComponents.

Section HeroProperties.
Import HeroSearch.

Lemma or_popular_nonempty (query : string) : or_popular query <> "".
Proof.
  unfold or_popular. destruct (String.eqb query "") eqn:E; [discriminate|].
  apply String.eqb_neq, E.
Qed.

Lemma run_alerts (es : list Event) :
  forall h,
    Forall (fun m => exists x, m = ("Search: " ++ x)%string /\ x <> "") (alerts h) ->
    Forall (fun m => exists x, m = ("Search: " ++ x)%string /\ x <> "")
           (alerts (run es h)).
Proof.
  induction es as [|e es IH]; intros h Hh; [exact Hh|].
  simpl. apply IH. destruct e; simpl; try exact Hh.
  apply Forall_app. split; [exact Hh|].
  constructor; [|constructor].
  exists (or_popular (q h)). split; [reflexivity | apply or_popular_nonempty].
Qed.

(** X16. The search form never alerts an empty query. Whatever the user
    types, picks or submits, every alert reads "Search: " followed by a
    non-empty text; submitting an empty field alerts "Search: popular
    topics", submitting after picking a chip alerts that chip, and a
    submission leaves the field as it is. *)
Theorem X16_search_never_empty (es : list Event) (c : string) :
  Forall (fun m => exists x, m = ("Search: " ++ x)%string /\ x <> "")
         (alerts (run es initial)) /\
  alerts (run (es ++ [Change ""; Submit]) initial)
    = (alerts (run es initial) ++ ["Search: popular topics"])%list /\
  (c ∈ chips ->
   alerts (run (es ++ [Chip c; Submit]) initial)
     = (alerts (run es initial) ++ [("Search: " ++ c)%string])%list) /\
  q (run (es ++ [Submit]) initial) = q (run es initial).
Proof.
  split; [apply run_alerts; constructor|].
  unfold run. rewrite !fold_left_app. simpl.
  split; [reflexivity|]. split; [|reflexivity].
  intros Hc. unfold chips in Hc.
  repeat (apply elem_of_cons in Hc as [-> | Hc]); try reflexivity.
  inversion Hc.
Qed.

End HeroProperties.

Section CategoryProperties.
Import Categories.

(** X17. The category chips behave as one toggle group: a click on a
    chip that was not active makes it the only active chip, a click on
    the active chip leaves no chip active, and no chip is active before
    the first click. *)
Theorem X17_one_active_category (selected : option string) (c : string) :
  c ∈ CATEGORIES ->
  active_chips (click selected c)
    = (if bool_decide (selected = Some c) then [] else [c]) /\
  active_chips None = [].
Proof.
  intros Hc. split; [|reflexivity].
  unfold CATEGORIES in Hc.
  repeat (apply elem_of_cons in Hc as [-> | Hc]);
    try (unfold click; case_bool_decide; reflexivity).
  inversion Hc.
Qed.

Lemma X17_one_active_category_witness :
  active_chips (click (Some "Cloud") "Design")
    = (if bool_decide (Some "Cloud" = Some "Design") then [] else ["Design"]) /\
  active_chips None = [].
Proof.
  apply (X17_one_active_category (Some "Cloud") "Design").
  unfold CATEGORIES. do 5 right. left.
Defined.

End CategoryProperties.

Section AppProperties.
Import App.

(** X18. The heading of [App] is never blank: it shows "Loading..."
    before the request settles, after a failed request (which is logged
    once more and leaves the heading as it was) and for a missing or
    empty message, and shows the message when a non-empty one arrives. *)
Theorem X18_heading_never_blank (a : App) (o : Outcome) :
  heading (settle o a) <> "" /\
  heading initial = "Loading..." /\
  match o with
  | Resolved (Some m) =>
      heading (settle o a) = (if String.eqb m "" then "Loading..." else m)
  | Resolved None => heading (settle o a) = "Loading..."
  | Rejected =>
      heading (settle o a) = heading a /\ errors (settle o a) = S (errors a)
  end.
Proof.
  split; [|split; [reflexivity|]].
  - unfold heading. destruct (data (settle o a)) as [s|]; [|discriminate].
    destruct (String.eqb s "") eqn:E; [discriminate|].
    apply String.eqb_neq, E.
  - destruct o as [[m|]|]; simpl; auto.
Qed.

End AppProperties.
